(** * Quadrotor flight-dynamics simulator: plant, controllers, reference generator

    A shallow embedding of [physics.js], [controllers.js] and [trajectories.js].

    Numbers.  Every JavaScript number is read as a real number: [+ - * /] are
    the field operations of [R], [Math.max]/[Math.min]/[Math.abs]/[Math.sqrt]/
    [Math.cos]/[Math.sin]/[Math.asin] are [Rmax]/[Rmin]/[Rabs]/[sqrt]/[cos]/
    [sin]/[asin].  Rounding, overflow, infinities and NaN are outside this
    model.  The divisors of [allocateMotors] are nonzero constants and those
    of the thrust and attitude block are at least 0.1; the quotient of
    [evaluateCustom] by a zero segment time is treated where it occurs; the
    quotients of [derivatives] (by [cos θ]) and of [solve1D] (by the weight
    sum times [1 + R]) are real quotients only while their divisor is
    nonzero.

    Objects.  A JavaScript object with a fixed set of numeric fields is a
    record living in a module of its own, so that [State.x s] reads like
    [s.x]; a constant object such as [PARAMS] is a module of constants.  An
    optional field ([target.vx], [env.windX], [intState.mpcPrediction]) is an
    [option].

    Mutation.  Functions that update an object in place return the updated
    object; the module-level [let] variables ([intState], the variables of
    the custom walker) are threaded explicitly. *)

From Stdlib Require Import Reals Lra Lia List String ZArith Bool.
Import ListNotations.
Open Scope R_scope.

(* ===================================================================== *)
(** ** JavaScript idioms shared by the three modules *)
(* ===================================================================== *)

Module JS.

(** [x || 0] on an optional numeric field: a missing field and the number
    zero both yield [0], every other number yields itself. *)
Definition or0 (x : option R) : R :=
  match x with
  | Some v => if Req_dec_T v 0 then 0 else v
  | None => 0
  end.

(** [x || 0] on a field that is always present. *)
Definition num_or0 (x : R) : R := if Req_dec_T x 0 then 0 else x.

(** [for (let k = lo; k <= hi; k++) body], as a state transformer.  The
    loop variable is a counter; [for_steps n k] runs [n] iterations starting
    at [k]. *)
Fixpoint for_steps {S : Type} (n k : nat) (body : nat -> S -> S) (st : S) : S :=
  match n with
  | O => st
  | Datatypes.S n' => for_steps n' (Datatypes.S k) body (body k st)
  end.

Definition for_le {S : Type} (lo hi : nat) (body : nat -> S -> S) (st : S) : S :=
  for_steps (Datatypes.S hi - lo) lo body st.

(** [Math.atan2(y, x)] on reals (signed zeros are not modelled). *)
Definition atan2 (y x : R) : R :=
  if Rlt_dec 0 x then atan (y / x)
  else if Rlt_dec x 0 then
         (if Rle_dec 0 y then atan (y / x) + PI else atan (y / x) - PI)
  else if Rlt_dec 0 y then PI / 2
  else if Rlt_dec y 0 then - (PI / 2)
  else 0.

(** [Math.floor], and the remainder operator [%], whose result has the
    sign of the dividend: [a % b = a - b * trunc(a / b)]. *)
Definition floor (x : R) : Z := Int_part x.

Definition trunc (x : R) : Z :=
  if Rle_dec 0 x then Int_part x else (- Int_part (- x))%Z.

Definition rem (a b : R) : R := a - b * IZR (trunc (a / b)).

(** [Math.min(a / b, 1)] where [b] may be zero.  For [b = 0] and [a > 0]
    the quotient is [+Infinity] and the minimum is 1.  For [b = 0] and
    [a <= 0] the quotient (NaN or [-Infinity]) is not a real number; the
    value given here for that case has no counterpart in the source. *)
Definition min_quot_1 (a b : R) : R :=
  if Req_dec_T b 0 then (if Rlt_dec 0 a then 1 else a / b)
  else Rmin (a / b) 1.

(** [arr[i]] for an integer-valued index: [undefined] ([None]) outside the
    array. *)
Definition index {A : Type} (arr : list A) (i : Z) : option A :=
  if (i <? 0)%Z then None else nth_error arr (Z.to_nat i).

End JS.

(* ===================================================================== *)
(** ** physics.js *)
(* ===================================================================== *)

Module Physics.

(** [const PARAMS = { ... }] *)
Module PARAMS.
Definition m    : R := 0.5.
Definition g    : R := 9.81.
Definition Ixx  : R := 0.0023.
Definition Iyy  : R := 0.0023.
Definition Izz  : R := 0.004.
Definition L    : R := 0.17.
Definition kT   : R := 2.98e-6.
Definition kD   : R := 1.14e-7.
Definition Cd   : R := 0.04.
Definition wMax : R := 2200.
Definition wMin : R := 0.
End PARAMS.

(** The state object: twelve scalars and the [motors] array. *)
Module State.
Record t : Type := mk {
    x : R; y : R; z : R;
    vx : R; vy : R; vz : R;
    phi : R; theta : R; psi : R;
    p : R; q : R; r : R;
    motors : list R
  }.
End State.

(** The object returned by [derivatives]. *)
Module Deriv.
Record t : Type := mk {
    dx : R; dy : R; dz : R;
    dvx : R; dvy : R; dvz : R;
    dphi : R; dtheta : R; dpsi : R;
    dp : R; dq : R; dr : R
  }.
End Deriv.

(** [env = { windX, windY, windZ }], each read as [env.windX || 0]. *)
Module Env.
Record t : Type := mk {
    windX : option R; windY : option R; windZ : option R
  }.
End Env.

(** The input vector [u = [T, τφ, τθ, τψ]]. *)
Definition Input : Type := (R * R * R * R)%type.

Definition createState : State.t :=
  State.mk 0 0 0 0 0 0 0 0 0 0 0 0 [0; 0; 0; 0].

Definition clamp (v lo hi : R) : R := Rmax lo (Rmin hi v).

(** Lines 66-74 of [allocateMotors]: the four squared speeds before
    clamping. *)
Definition motorSquares (T tauPhi tauTheta tauPsi : R) : R * R * R * R :=
  let s2 := sqrt 2 in
  let a := T / (4 * PARAMS.kT) in
  let b := tauPhi * s2 / (4 * PARAMS.kT * PARAMS.L) in
  let c := tauTheta * s2 / (4 * PARAMS.kT * PARAMS.L) in
  let d := tauPsi / (4 * PARAMS.kD) in
  (a - b - c - d, a - b + c + d, a + b + c - d, a + b - c + d).

Definition allocateMotors (T tauPhi tauTheta tauPsi : R) : list R :=
  let '(w1sq, w2sq, w3sq, w4sq) := motorSquares T tauPhi tauTheta tauPsi in
  let wMaxSq := PARAMS.wMax * PARAMS.wMax in
  let w1sq := clamp w1sq 0 wMaxSq in
  let w2sq := clamp w2sq 0 wMaxSq in
  let w3sq := clamp w3sq 0 wMaxSq in
  let w4sq := clamp w4sq 0 wMaxSq in
  [sqrt w1sq; sqrt w2sq; sqrt w3sq; sqrt w4sq].

(** The X-configuration mixing written in the comment above [createState]:
    motor speeds to thrust and torques. *)
Definition mixing (w : list R) : option Input :=
  match w with
  | [w1; w2; w3; w4] =>
      Some (PARAMS.kT * (w1 * w1 + w2 * w2 + w3 * w3 + w4 * w4),
            PARAMS.kT * PARAMS.L * (- (w1 * w1) - w2 * w2 + w3 * w3 + w4 * w4) / sqrt 2,
            PARAMS.kT * PARAMS.L * (- (w1 * w1) + w2 * w2 + w3 * w3 - w4 * w4) / sqrt 2,
            PARAMS.kD * (- (w1 * w1) + w2 * w2 - w3 * w3 + w4 * w4))
  | _ => None
  end.

(** No axis saturates: each unclamped squared speed already lies in
    [[0, wMax^2]]. *)
Definition inRange (w : R) : Prop := 0 <= w <= PARAMS.wMax * PARAMS.wMax.

Definition unsaturated (T tauPhi tauTheta tauPsi : R) : Prop :=
  let '(w1sq, w2sq, w3sq, w4sq) := motorSquares T tauPhi tauTheta tauPsi in
  inRange w1sq /\ inRange w2sq /\ inRange w3sq /\ inRange w4sq.

Definition derivatives (s : State.t) (u : Input) (env : Env.t) : Deriv.t :=
  let m := PARAMS.m in let g := PARAMS.g in
  let Ixx := PARAMS.Ixx in let Iyy := PARAMS.Iyy in let Izz := PARAMS.Izz in
  let Cd := PARAMS.Cd in
  let '(T, tphi, ttheta, tpsi) := u in
  let cphi := cos (State.phi s) in let sphi := sin (State.phi s) in
  let cth := cos (State.theta s) in let sth := sin (State.theta s) in
  let cpsi := cos (State.psi s) in let spsi := sin (State.psi s) in
  let Tx := T * (cpsi * sth * cphi + spsi * sphi) in
  let Ty := T * (cth * cphi) in
  let Tz := T * (spsi * sth * cphi - cpsi * sphi) in
  let dvx := (Tx / m) - Cd * State.vx s + JS.or0 (Env.windX env) in
  let dvy := (Ty / m) - g - Cd * State.vy s + JS.or0 (Env.windY env) in
  let dvz := (Tz / m) - Cd * State.vz s + JS.or0 (Env.windZ env) in
  let dphi := State.p s + (sphi * sth / cth) * State.q s
              + (cphi * sth / cth) * State.r s in
  let dtheta := cphi * State.q s - sphi * State.r s in
  let dpsi := (sphi / cth) * State.q s + (cphi / cth) * State.r s in
  let dp := (tphi - (Izz - Iyy) * State.q s * State.r s) / Ixx in
  let dq := (ttheta - (Ixx - Izz) * State.p s * State.r s) / Iyy in
  let dr := (tpsi - (Iyy - Ixx) * State.p s * State.q s) / Izz in
  Deriv.mk (State.vx s) (State.vy s) (State.vz s)
           dvx dvy dvz dphi dtheta dpsi dp dq dr.

(** [addScaled] builds a fresh object with the twelve scalars only; the
    copy has no [motors] field, which is the empty list here. *)
Definition addScaled (s : State.t) (k : Deriv.t) (h : R) : State.t :=
  State.mk
    (State.x s + Deriv.dx k * h) (State.y s + Deriv.dy k * h)
    (State.z s + Deriv.dz k * h)
    (State.vx s + Deriv.dvx k * h) (State.vy s + Deriv.dvy k * h)
    (State.vz s + Deriv.dvz k * h)
    (State.phi s + Deriv.dphi k * h) (State.theta s + Deriv.dtheta k * h)
    (State.psi s + Deriv.dpsi k * h)
    (State.p s + Deriv.dp k * h) (State.q s + Deriv.dq k * h)
    (State.r s + Deriv.dr k * h)
    [].

(** Lines 94-114 of [step]: the four stages and the in-place combination.
    Every [+=] reads the stage derivatives, which were computed before the
    first update, and its own field; the order of the twelve updates is
    therefore immaterial.  [motors] is untouched. *)
Definition rk4 (s : State.t) (u : Input) (env : Env.t) (dt : R) : State.t :=
  let k1 := derivatives s u env in
  let s2 := addScaled s k1 (dt / 2) in
  let k2 := derivatives s2 u env in
  let s3 := addScaled s k2 (dt / 2) in
  let k3 := derivatives s3 u env in
  let s4 := addScaled s k3 dt in
  let k4 := derivatives s4 u env in
  let comb (f : Deriv.t -> R) := dt / 6 * (f k1 + 2 * f k2 + 2 * f k3 + f k4) in
  State.mk
    (State.x s + comb Deriv.dx) (State.y s + comb Deriv.dy)
    (State.z s + comb Deriv.dz)
    (State.vx s + comb Deriv.dvx) (State.vy s + comb Deriv.dvy)
    (State.vz s + comb Deriv.dvz)
    (State.phi s + comb Deriv.dphi) (State.theta s + comb Deriv.dtheta)
    (State.psi s + comb Deriv.dpsi)
    (State.p s + comb Deriv.dp) (State.q s + comb Deriv.dq)
    (State.r s + comb Deriv.dr)
    (State.motors s).

(** Line 117: [if (s.y < 0) { s.y = 0; s.vy = Math.max(0, s.vy); }] *)
Definition groundContact (s : State.t) : State.t :=
  if Rlt_dec (State.y s) 0 then
    State.mk (State.x s) 0 (State.z s)
             (State.vx s) (Rmax 0 (State.vy s)) (State.vz s)
             (State.phi s) (State.theta s) (State.psi s)
             (State.p s) (State.q s) (State.r s) (State.motors s)
  else s.

(** Line 120: [s.motors = allocateMotors(u[0], u[1], u[2], u[3])] *)
Definition storeMotors (s : State.t) (u : Input) : State.t :=
  let '(u0, u1, u2, u3) := u in
  State.mk (State.x s) (State.y s) (State.z s)
           (State.vx s) (State.vy s) (State.vz s)
           (State.phi s) (State.theta s) (State.psi s)
           (State.p s) (State.q s) (State.r s)
           (allocateMotors u0 u1 u2 u3).

Definition step (s : State.t) (u : Input) (env : Env.t) (dt : R) : State.t :=
  storeMotors (groundContact (rk4 s u env dt)) u.

End Physics.


(* ===================================================================== *)
(** ** The setpoint record shared by trajectories.js and controllers.js *)
(* ===================================================================== *)

(** [{ x, y, z, vx, vy, vz, yaw }].  The feed-forward velocity and the yaw
    are optional: the controllers read them as [target.vx || 0], and the
    fallback closure of [getTrajectoryFn] returns [{ x, y, z }] only. *)
Module Setpoint.
Record t : Type := mk {
  x : R; y : R; z : R;
  vx : option R; vy : option R; vz : option R;
  yaw : option R
}.
End Setpoint.

(** One entry of [intState.mpcPrediction]: [{ x, y, z }]. *)
Module Point.
Record t : Type := mk { x : R; y : R; z : R }.
End Point.

(** One number per translational axis: the three integrators, surfaces or
    accumulators that an outer loop computes side by side. *)
Module Axes.
Record t : Type := mk { x : R; y : R; z : R }.
End Axes.

(* ===================================================================== *)
(** ** controllers.js *)
(* ===================================================================== *)

Module Controllers.

Import Physics.

(** [const { m, g, Ixx, Iyy, Izz } = PARAMS;] *)
Definition m : R := PARAMS.m.
Definition g : R := PARAMS.g.
Definition Ixx : R := PARAMS.Ixx.
Definition Iyy : R := PARAMS.Iyy.
Definition Izz : R := PARAMS.Izz.

(** The [gains] object.  Each controller reads the keys of its own algorithm
    ([G.Kp_xy], [G.lambda_xy], ...); the record carries the union of the four
    key sets of [defaultGains], in which keys shared by two algorithms
    ([lambda_xy], [lambda_z], [lambda_att], [Kp_att], [Kd_att]) have the same
    default.  [N] is the horizon, a number of steps. *)
Module Gains.
Record t : Type := mk {
  (* PID *)
  Kp_xy : R; Ki_xy : R; Kd_xy : R;
  Kp_z : R; Ki_z : R; Kd_z : R;
  Kp_att : R; Kd_att : R;
  Kp_yaw : R; Kd_yaw : R;
  iMax : R;
  (* SMC *)
  lambda_xy : R; lambda_z : R;
  eta_xy : R; eta_z : R;
  phi_xy : R; phi_z : R;
  lambda_att : R; eta_att : R;
  phi_att : R;
  (* STS *)
  alpha1_xy : R; alpha2_xy : R;
  alpha1_z : R; alpha2_z : R;
  alpha1_att : R; alpha2_att : R;
  (* MPC *)
  N : nat;
  Q_pos : R; Q_vel : R;
  R : R
}.
End Gains.

Definition defaultGains : Gains.t :=
  Gains.mk 4.0 0.2 3.0  8.0 0.5 5.0  12.0 4.0  3.0 1.5  2.0
           2.5 3.0  3.0 5.0  0.0 0.0  8.0 4.0  0.1
           5.0 3.0  8.0 5.0  10.0 6.0
           10  8.0 2.0  0.1.

(** [intState], as [resetInternal] creates it, plus the [mpcPrediction]
    field that [computeMPC] adds. *)
Module IntState.
Record t : Type := mk {
  iEx : R; iEy : R; iEz : R;
  v_x : R; v_y : R; v_z : R;
  v_phi : R; v_theta : R; v_psi : R;
  s_x : R; s_y : R; s_z : R;
  s_phi : R; s_theta : R;
  T : R; tau_phi : R; tau_theta : R; tau_psi : R;
  mpcPrediction : option (list Point.t)
}.
End IntState.

Definition resetInternal : IntState.t :=
  IntState.mk 0 0 0  0 0 0  0 0 0  0 0 0  0 0  0 0 0 0  None.

(** The local constants of one controller call that the properties below
    speak about. *)
Module Locals.
Record t : Type := mk {
  ax_des : R; ay_des : R; az_des : R;
  T : R; phi_des : R; theta_des : R
}.
End Locals.

Definition sign (x : R) : R :=
  if Rlt_dec 0 x then 1 else if Rlt_dec x 0 then -1 else 0.

Definition sat (s phi : R) : R :=
  if Rle_dec phi 0 then sign s
  else let v := s / phi in
       if Rle_dec (Rabs v) 1 then v else sign v.

(** "Thrust & desired attitude": the same seven lines stand in [computePID]
    (136-143), [computeSMC] (184-190), [computeSTS] (236-242) and
    [computeMPC] (319-325), applied to that controller's desired
    accelerations. *)
Definition thrustAttitude (state : State.t) (ax_des ay_des az_des : R) : Locals.t :=
  let cphi := cos (State.phi state) in
  let cth := cos (State.theta state) in
  let T := clamp (m * (g + ay_des) / Rmax (cphi * cth) 0.1) 0 (m * g * 4) in
  let psi := State.psi state in
  let cpsi := cos psi in
  let spsi := sin psi in
  let phi_des :=
    clamp (asin (clamp (m * (ax_des * spsi - az_des * cpsi) / Rmax T 0.1)
                       (-0.8) 0.8))
          (-0.6) 0.6 in
  let theta_des :=
    clamp (JS.atan2 (ax_des * cpsi + az_des * spsi) (g + ay_des)) (-0.6) 0.6 in
  Locals.mk ax_des ay_des az_des T phi_des theta_des.

(* --------------------------------------------------------------------- *)
(** *** 1. Cascaded PID *)

(** Lines 116-143: position errors, integrators with anti-windup, desired
    accelerations, thrust and desired attitude.  Returns the locals and the
    three updated integrators [iEx], [iEy], [iEz]. *)
Definition pidOuter (state : State.t) (target : Setpoint.t) (G : Gains.t)
    (dt : R) (intState : IntState.t) : Locals.t * Axes.t :=
  let ex := Setpoint.x target - State.x state in
  let ey := Setpoint.y target - State.y state in
  let ez := Setpoint.z target - State.z state in
  let evx := JS.or0 (Setpoint.vx target) - State.vx state in
  let evy := JS.or0 (Setpoint.vy target) - State.vy state in
  let evz := JS.or0 (Setpoint.vz target) - State.vz state in
  let iEx := clamp (IntState.iEx intState + ex * dt) (- Gains.iMax G) (Gains.iMax G) in
  let iEy := clamp (IntState.iEy intState + ey * dt) (- Gains.iMax G) (Gains.iMax G) in
  let iEz := clamp (IntState.iEz intState + ez * dt) (- Gains.iMax G) (Gains.iMax G) in
  let ax_des := Gains.Kp_xy G * ex + Gains.Ki_xy G * iEx + Gains.Kd_xy G * evx in
  let ay_des := Gains.Kp_z G * ey + Gains.Ki_z G * iEy + Gains.Kd_z G * evy in
  let az_des := Gains.Kp_xy G * ez + Gains.Ki_xy G * iEz + Gains.Kd_xy G * evz in
  (thrustAttitude state ax_des ay_des az_des, Axes.mk iEx iEy iEz).

Definition computePID (state : State.t) (target : Setpoint.t) (G : Gains.t)
    (dt : R) (intState : IntState.t) : Input * IntState.t :=
  let ex := Setpoint.x target - State.x state in
  let ey := Setpoint.y target - State.y state in
  let ez := Setpoint.z target - State.z state in
  let '(loc, iE) := pidOuter state target G dt intState in
  let T := Locals.T loc in
  let phi_des := Locals.phi_des loc in
  let theta_des := Locals.theta_des loc in
  let psi_des := JS.or0 (Setpoint.yaw target) in
  let tau_phi := Gains.Kp_att G * (phi_des - State.phi state) - Gains.Kd_att G * State.p state in
  let tau_theta := Gains.Kp_att G * (theta_des - State.theta state) - Gains.Kd_att G * State.q state in
  let tau_psi := Gains.Kp_yaw G * (psi_des - State.psi state) - Gains.Kd_yaw G * State.r state in
  ((T, tau_phi, tau_theta, tau_psi),
   IntState.mk (Axes.x iE) (Axes.y iE) (Axes.z iE)
     (IntState.v_x intState) (IntState.v_y intState) (IntState.v_z intState)
     (IntState.v_phi intState) (IntState.v_theta intState) (IntState.v_psi intState)
     ex ey ez
     (IntState.s_phi intState) (IntState.s_theta intState)
     T tau_phi tau_theta tau_psi
     (IntState.mpcPrediction intState)).

(* --------------------------------------------------------------------- *)
(** *** 2. Sliding mode control *)

(** The sliding surface of one translational axis, [s = ė + λ·e]
    (lines 171-173). *)
Definition surface (lambda e ev : R) : R := ev + lambda * e.

(** The outer control of one translational axis,
    [λ·ė + η·sat(s, φ)] (lines 179-181). *)
Definition smcAxis (lambda eta phi e ev : R) : R :=
  lambda * ev + eta * sat (surface lambda e ev) phi.

(** Lines 166-190.  Returns the locals and the three surfaces [sx], [sy],
    [sz]. *)
Definition smcOuter (state : State.t) (target : Setpoint.t) (G : Gains.t)
    : Locals.t * Axes.t :=
  let ex := Setpoint.x target - State.x state in
  let evx := JS.or0 (Setpoint.vx target) - State.vx state in
  let ey := Setpoint.y target - State.y state in
  let evy := JS.or0 (Setpoint.vy target) - State.vy state in
  let ez := Setpoint.z target - State.z state in
  let evz := JS.or0 (Setpoint.vz target) - State.vz state in
  let sx := surface (Gains.lambda_xy G) ex evx in
  let sy := surface (Gains.lambda_z G) ey evy in
  let sz := surface (Gains.lambda_xy G) ez evz in
  let ax_des := smcAxis (Gains.lambda_xy G) (Gains.eta_xy G) (Gains.phi_xy G) ex evx in
  let ay_des := smcAxis (Gains.lambda_z G) (Gains.eta_z G) (Gains.phi_z G) ey evy in
  let az_des := smcAxis (Gains.lambda_xy G) (Gains.eta_xy G) (Gains.phi_xy G) ez evz in
  (thrustAttitude state ax_des ay_des az_des, Axes.mk sx sy sz).

Definition computeSMC (state : State.t) (target : Setpoint.t) (G : Gains.t)
    (dt : R) (intState : IntState.t) : Input * IntState.t :=
  let '(loc, s) := smcOuter state target G in
  let T := Locals.T loc in
  let phi_des := Locals.phi_des loc in
  let theta_des := Locals.theta_des loc in
  let s_phi := - State.p state + Gains.lambda_att G * (phi_des - State.phi state) in
  let s_theta := - State.q state + Gains.lambda_att G * (theta_des - State.theta state) in
  let s_psi := - State.r state + Gains.lambda_att G * (0 - State.psi state) in
  let tau_phi := Ixx * (Gains.lambda_att G * (- State.p state)
                        + Gains.eta_att G * sat s_phi (Gains.phi_att G)) in
  let tau_theta := Iyy * (Gains.lambda_att G * (- State.q state)
                          + Gains.eta_att G * sat s_theta (Gains.phi_att G)) in
  let tau_psi := Izz * (Gains.lambda_att G * (- State.r state)
                        + Gains.eta_att G * sat s_psi (Gains.phi_att G)) in
  ((T, tau_phi, tau_theta, tau_psi),
   IntState.mk
     (IntState.iEx intState) (IntState.iEy intState) (IntState.iEz intState)
     (IntState.v_x intState) (IntState.v_y intState) (IntState.v_z intState)
     (IntState.v_phi intState) (IntState.v_theta intState) (IntState.v_psi intState)
     (Axes.x s) (Axes.y s) (Axes.z s)
     s_phi s_theta
     T tau_phi tau_theta tau_psi
     (IntState.mpcPrediction intState)).

(* --------------------------------------------------------------------- *)
(** *** 3. Super-twisting sliding mode *)

(** One super-twisting channel: [v += -α₂·sign(s)·dt] followed by
    [α₁·√|s|·sign(s) + v].  Returns the control and the updated [v]. *)
Definition stsAxis (alpha1 alpha2 s v dt : R) : R * R :=
  let v' := v + - alpha2 * sign s * dt in
  (alpha1 * sqrt (Rabs s) * sign s + v', v').

(** Lines 215-242.  Returns the locals, the surfaces and the three updated
    accumulators [v_x], [v_y], [v_z]. *)
Definition stsOuter (state : State.t) (target : Setpoint.t) (G : Gains.t)
    (dt : R) (intState : IntState.t) : Locals.t * Axes.t * Axes.t :=
  let ex := Setpoint.x target - State.x state in
  let evx := JS.or0 (Setpoint.vx target) - State.vx state in
  let ey := Setpoint.y target - State.y state in
  let evy := JS.or0 (Setpoint.vy target) - State.vy state in
  let ez := Setpoint.z target - State.z state in
  let evz := JS.or0 (Setpoint.vz target) - State.vz state in
  let sx := surface (Gains.lambda_xy G) ex evx in
  let sy := surface (Gains.lambda_z G) ey evy in
  let sz := surface (Gains.lambda_xy G) ez evz in
  let '(ax_des, v_x) :=
    stsAxis (Gains.alpha1_xy G) (Gains.alpha2_xy G) sx (IntState.v_x intState) dt in
  let '(ay_des, v_y) :=
    stsAxis (Gains.alpha1_z G) (Gains.alpha2_z G) sy (IntState.v_y intState) dt in
  let '(az_des, v_z) :=
    stsAxis (Gains.alpha1_xy G) (Gains.alpha2_xy G) sz (IntState.v_z intState) dt in
  (thrustAttitude state ax_des ay_des az_des, Axes.mk sx sy sz, Axes.mk v_x v_y v_z).

Definition computeSTS (state : State.t) (target : Setpoint.t) (G : Gains.t)
    (dt : R) (intState : IntState.t) : Input * IntState.t :=
  let '(loc, s, v) := stsOuter state target G dt intState in
  let T := Locals.T loc in
  let phi_des := Locals.phi_des loc in
  let theta_des := Locals.theta_des loc in
  let s_phi := - State.p state + Gains.lambda_att G * (phi_des - State.phi state) in
  let s_theta := - State.q state + Gains.lambda_att G * (theta_des - State.theta state) in
  let s_psi := - State.r state + Gains.lambda_att G * (0 - State.psi state) in
  let v_phi := IntState.v_phi intState + - Gains.alpha2_att G * sign s_phi * dt in
  let v_theta := IntState.v_theta intState + - Gains.alpha2_att G * sign s_theta * dt in
  let v_psi := IntState.v_psi intState + - Gains.alpha2_att G * sign s_psi * dt in
  let tau_phi := Ixx * (Gains.alpha1_att G * sqrt (Rabs s_phi) * sign s_phi + v_phi) in
  let tau_theta := Iyy * (Gains.alpha1_att G * sqrt (Rabs s_theta) * sign s_theta + v_theta) in
  let tau_psi := Izz * (Gains.alpha1_att G * sqrt (Rabs s_psi) * sign s_psi
                        + JS.num_or0 v_psi) in
  ((T, tau_phi, tau_theta, tau_psi),
   IntState.mk
     (IntState.iEx intState) (IntState.iEy intState) (IntState.iEz intState)
     (Axes.x v) (Axes.y v) (Axes.z v)
     v_phi v_theta v_psi
     (Axes.x s) (Axes.y s) (Axes.z s)
     s_phi s_theta
     T tau_phi tau_theta tau_psi
     (IntState.mpcPrediction intState)).

(* --------------------------------------------------------------------- *)
(** *** 4. Model predictive control *)

(** The body of the loop of [solve1D] (lines 284-291), acting on the pair
    [(totalAccel, weightSum)].  [N], [time] and [dtPred] are the variables
    the closure captures from [computeMPC]; the parameter [R] of the source
    is [R_] in [solve1D]. *)
Definition solve1D_body (N : nat) (time dtPred : R)
    (pos vel : R) (refFn : R -> R) (Q_p Q_v : R)
    (k : nat) (acc : R * R) : R * R :=
  let '(totalAccel, weightSum) := acc in
  let tFuture := time + INR k * dtPred in
  let ref := refFn tFuture in
  let predPos := pos + vel * (INR k * dtPred) in
  let errPos := ref - predPos in
  let w := 1.0 - 0.3 * (INR k - 1) / INR N in
  (totalAccel + w * (Q_p * errPos - Q_v * vel), weightSum + w).

Definition solve1D (N : nat) (time dtPred : R)
    (pos vel : R) (refFn : R -> R) (Q_p Q_v R_ : R) : R :=
  let '(totalAccel, weightSum) :=
    JS.for_le 1 N (solve1D_body N time dtPred pos vel refFn Q_p Q_v) (0, 0) in
  totalAccel / (weightSum * (1 + R_)).

(** [const r = trajectoryFn ? trajectoryFn(t) : target] *)
Definition mpcRef (trajectoryFn : option (R -> Setpoint.t)) (target : Setpoint.t)
    (t : R) : Setpoint.t :=
  match trajectoryFn with
  | Some f => f t
  | None => target
  end.

(** Lines 269-304 and 319-325: the three axis solves, thrust and desired
    attitude. *)
Definition mpcOuter (state : State.t) (target : Setpoint.t) (G : Gains.t)
    (dt : R) (trajectoryFn : option (R -> Setpoint.t)) (time : R) : Locals.t :=
  let N := Gains.N G in
  let dtPred := dt * 2 in
  let ax_des := solve1D N time dtPred (State.x state) (State.vx state)
                  (fun t => Setpoint.x (mpcRef trajectoryFn target t))
                  (Gains.Q_pos G) (Gains.Q_vel G) (Gains.R G) in
  let ay_des := solve1D N time dtPred (State.y state) (State.vy state)
                  (fun t => Setpoint.y (mpcRef trajectoryFn target t))
                  (Gains.Q_pos G) (Gains.Q_vel G) (Gains.R G) in
  let az_des := solve1D N time dtPred (State.z state) (State.vz state)
                  (fun t => Setpoint.z (mpcRef trajectoryFn target t))
                  (Gains.Q_pos G) (Gains.Q_vel G) (Gains.R G) in
  thrustAttitude state ax_des ay_des az_des.

(** The body of the loop of lines 308-316: one [push] onto
    [intState.mpcPrediction].  (The loop also evaluates [trajectoryFn] into a
    constant it never reads.) *)
Definition predict_body (state : State.t) (ax_des ay_des az_des dtPred : R)
    (k : nat) (pred : list Point.t) : list Point.t :=
  pred ++
  [Point.mk
     (State.x state + State.vx state * (INR k * dtPred)
      + 0.5 * ax_des * (INR k * dtPred) ^ 2)
     (State.y state + State.vy state * (INR k * dtPred)
      + 0.5 * ay_des * (INR k * dtPred) ^ 2)
     (State.z state + State.vz state * (INR k * dtPred)
      + 0.5 * az_des * (INR k * dtPred) ^ 2)].

Definition mpcPredict (state : State.t) (loc : Locals.t) (N : nat) (dtPred : R)
    : list Point.t :=
  JS.for_le 0 N
    (predict_body state (Locals.ax_des loc) (Locals.ay_des loc)
                  (Locals.az_des loc) dtPred)
    [].

Definition computeMPC (state : State.t) (target : Setpoint.t) (G : Gains.t)
    (dt : R) (trajectoryFn : option (R -> Setpoint.t)) (time : R)
    (intState : IntState.t) : Input * IntState.t :=
  let N := Gains.N G in
  let dtPred := dt * 2 in
  let loc := mpcOuter state target G dt trajectoryFn time in
  let mpcPrediction := mpcPredict state loc N dtPred in
  let T := Locals.T loc in
  let phi_des := Locals.phi_des loc in
  let theta_des := Locals.theta_des loc in
  let tau_phi := Gains.Kp_att G * (phi_des - State.phi state) - Gains.Kd_att G * State.p state in
  let tau_theta := Gains.Kp_att G * (theta_des - State.theta state) - Gains.Kd_att G * State.q state in
  let tau_psi := Gains.Kp_att G * (0 - State.psi state) - Gains.Kd_att G * State.r state in
  ((T, tau_phi, tau_theta, tau_psi),
   IntState.mk
     (IntState.iEx intState) (IntState.iEy intState) (IntState.iEz intState)
     (IntState.v_x intState) (IntState.v_y intState) (IntState.v_z intState)
     (IntState.v_phi intState) (IntState.v_theta intState) (IntState.v_psi intState)
     (Setpoint.x target - State.x state)
     (Setpoint.y target - State.y state)
     (Setpoint.z target - State.z state)
     (IntState.s_phi intState) (IntState.s_theta intState)
     T tau_phi tau_theta tau_psi
     (Some mpcPrediction)).

(* --------------------------------------------------------------------- *)
(** *** Dispatch *)

(** [switch (algo)] over the four string cases; there is no [default], so
    any other [algo] falls out of the [switch] and the function returns
    [undefined] ([None]) without having touched [intState]. *)
Definition compute (algo : string) (state : State.t) (target : Setpoint.t)
    (gains : Gains.t) (dt : R) (trajectoryFn : option (R -> Setpoint.t))
    (time : R) (intState : IntState.t) : option Input * IntState.t :=
  if String.eqb algo "PID" then
    let '(u, i) := computePID state target gains dt intState in (Some u, i)
  else if String.eqb algo "SMC" then
    let '(u, i) := computeSMC state target gains dt intState in (Some u, i)
  else if String.eqb algo "STS" then
    let '(u, i) := computeSTS state target gains dt intState in (Some u, i)
  else if String.eqb algo "MPC" then
    let '(u, i) := computeMPC state target gains dt trajectoryFn time intState in
    (Some u, i)
  else (None, intState).

End Controllers.


(* ===================================================================== *)
(** ** trajectories.js *)
(* ===================================================================== *)

Module Trajectories.

(** The [params] objects of the six predefined patterns. *)
Module HoverP.
Record t : Type := mk { x : R; y : R; z : R }.
End HoverP.

Module CircleP.
Record t : Type := mk { radius : R; altitude : R; speed : R }.
End CircleP.

Module HelixP.
Record t : Type := mk { radius : R; climbRate : R; speed : R }.
End HelixP.

Module Figure8P.
Record t : Type := mk { scaleX : R; scaleZ : R; altitude : R; speed : R }.
End Figure8P.

Module SquareP.
Record t : Type := mk { size : R; altitude : R; holdTime : R }.
End SquareP.

Module StepP.
Record t : Type := mk { startAlt : R; endAlt : R; stepTime : R }.
End StepP.

(** A full setpoint with zero feed-forward velocity and zero yaw. *)
Definition still (x y z : R) : Setpoint.t :=
  Setpoint.mk x y z (Some 0) (Some 0) (Some 0) (Some 0).

Definition HOVER_fn (t : R) (p : HoverP.t) : option Setpoint.t :=
  Some (still (HoverP.x p) (HoverP.y p) (HoverP.z p)).

Definition CIRCLE_fn (t : R) (p : CircleP.t) : option Setpoint.t :=
  let w := CircleP.speed p in
  Some (Setpoint.mk
          (CircleP.radius p * cos (w * t))
          (CircleP.altitude p)
          (CircleP.radius p * sin (w * t))
          (Some (- CircleP.radius p * w * sin (w * t)))
          (Some 0)
          (Some (CircleP.radius p * w * cos (w * t)))
          (Some 0)).

Definition HELIX_fn (t : R) (p : HelixP.t) : option Setpoint.t :=
  let w := HelixP.speed p in
  Some (Setpoint.mk
          (HelixP.radius p * cos (w * t))
          (1 + HelixP.climbRate p * t)
          (HelixP.radius p * sin (w * t))
          (Some (- HelixP.radius p * w * sin (w * t)))
          (Some (HelixP.climbRate p))
          (Some (HelixP.radius p * w * cos (w * t)))
          (Some 0)).

Definition FIGURE8_fn (t : R) (p : Figure8P.t) : option Setpoint.t :=
  let w := Figure8P.speed p in
  Some (Setpoint.mk
          (Figure8P.scaleX p * cos (w * t))
          (Figure8P.altitude p + 0.5 * sin (w * t * 0.5))
          (Figure8P.scaleZ p * sin (2 * w * t) / 2)
          (Some (- Figure8P.scaleX p * w * sin (w * t)))
          (Some (0.5 * 0.5 * w * cos (w * t * 0.5)))
          (Some (Figure8P.scaleZ p * w * cos (2 * w * t)))
          (Some 0)).

(** [SQUARE.fn] indexes [corners] with [segIdx % corners.length], which is
    negative for some negative [t]; reading [curr[0]] of the resulting
    [undefined] throws, which is [None] here. *)
Definition SQUARE_fn (t : R) (p : SquareP.t) : option Setpoint.t :=
  let size := SquareP.size p in
  let altitude := SquareP.altitude p in
  let corners :=
    [ (size, altitude, size);
      (- size, altitude, size);
      (- size, altitude, - size);
      (size, altitude, - size) ] in
  let totalPeriod := INR (List.length corners) * SquareP.holdTime p in
  let phase := JS.rem t totalPeriod in
  let segIdx := JS.floor (phase / SquareP.holdTime p) in
  let segFrac := JS.rem phase (SquareP.holdTime p) / SquareP.holdTime p in
  match JS.index corners (Z.rem segIdx (Z.of_nat (List.length corners))),
        JS.index corners (Z.rem (segIdx + 1) (Z.of_nat (List.length corners))) with
  | Some (c0, c1, c2), Some (n0, n1, n2) =>
      let s := segFrac * segFrac * (3 - 2 * segFrac) in
      Some (still (c0 + (n0 - c0) * s) (c1 + (n1 - c1) * s) (c2 + (n2 - c2) * s))
  | _, _ => None
  end.

Definition STEP_fn (t : R) (p : StepP.t) : option Setpoint.t :=
  let y := if Rlt_dec t (StepP.stepTime p) then StepP.startAlt p else StepP.endAlt p in
  Some (still 0 y 0).

(** One entry of the [patterns] object: [{ name, params, fn }] (the
    [description] text is left out). *)
Record Pattern : Type := mkPattern {
  name : string;
  P : Type;
  params : P;
  fn : R -> P -> option Setpoint.t
}.

(** The [patterns] object, as its list of own keys and values. *)
Definition patternTable : list (string * Pattern) :=
  [ ("HOVER"%string,
     mkPattern "Hover (Fixed Setpoint)" HoverP.t (HoverP.mk 0 3 0) HOVER_fn);
    ("CIRCLE"%string,
     mkPattern "Horizontal Circle" CircleP.t (CircleP.mk 4 3 0.5) CIRCLE_fn);
    ("HELIX"%string,
     mkPattern "Ascending Helix" HelixP.t (HelixP.mk 3 0.3 0.4) HELIX_fn);
    ("FIGURE8"%string,
     mkPattern "Lemniscate (Figure-8)" Figure8P.t (Figure8P.mk 5 3 3.5 0.4) FIGURE8_fn);
    ("SQUARE"%string,
     mkPattern "Waypoint Square" SquareP.t (SquareP.mk 4 3 3) SQUARE_fn);
    ("STEP"%string,
     mkPattern "Step Response" StepP.t (StepP.mk 1 4 3) STEP_fn) ].

(** [patterns[patternKey]] *)
Fixpoint lookup (table : list (string * Pattern)) (key : string) : option Pattern :=
  match table with
  | [] => None
  | (k, pat) :: rest => if String.eqb key k then Some pat else lookup rest key
  end.

Definition patterns (patternKey : string) : option Pattern :=
  lookup patternTable patternKey.

(** [evaluate]: [if (!pat) return { x: 0, y: 3, z: 0, vx: 0, ... }]. *)
Definition evaluate (patternKey : string) (t : R) : option Setpoint.t :=
  match patterns patternKey with
  | None => Some (still 0 3 0)
  | Some pat => fn pat t (params pat)
  end.

(** The module-level variables of the custom walker: [customWaypoints],
    [customIdx], [customT].  A waypoint is the array [[x, y, z]];
    [customSpeed] is never assigned after its initialisation. *)
Module Walker.
Record t : Type := mk {
  customWaypoints : list (R * R * R);
  customIdx : nat;
  customT : R
}.
End Walker.

Definition customSpeed : R := 1.0.

Definition setCustomWaypoints (wps : list (R * R * R)) (w : Walker.t) : Walker.t :=
  Walker.mk wps 0 0.

(** [evaluateCustom(t)] returns the setpoint and leaves the walker updated.
    Since [customIdx] is only ever reduced modulo the number of waypoints,
    both array reads of the general case are in range ([nth]'s default is
    never returned).  When two consecutive waypoints coincide [segTime] is
    zero; [customT] is positive after the increment in every state the
    walker reaches from [setCustomWaypoints], so that [frac] is then 1. *)
Definition evaluateCustom (t : R) (w : Walker.t) : Setpoint.t * Walker.t :=
  let customWaypoints := Walker.customWaypoints w in
  match customWaypoints with
  | [] => (still 0 3 0, w)
  | [(w0, w1, w2)] => (still w0 w1 w2, w)
  | _ =>
      let len := List.length customWaypoints in
      let '(c0, c1, c2) := nth (Walker.customIdx w mod len) customWaypoints (0, 0, 0) in
      let '(n0, n1, n2) := nth ((Walker.customIdx w + 1) mod len) customWaypoints (0, 0, 0) in
      let dx := n0 - c0 in
      let dy := n1 - c1 in
      let dz := n2 - c2 in
      let dist := sqrt (dx * dx + dy * dy + dz * dz) in
      let segTime := dist / customSpeed in
      let customT := Walker.customT w + 0.016 in
      let frac := JS.min_quot_1 customT segTime in
      let w' :=
        if Rle_dec 1 frac
        then Walker.mk customWaypoints ((Walker.customIdx w + 1) mod len) 0
        else Walker.mk customWaypoints (Walker.customIdx w) customT in
      let s := frac * frac * (3 - 2 * frac) in
      (still (c0 + dx * s) (c1 + dy * s) (c2 + dz * s), w')
  end.


(** The body of the loop of [generatePreview]: one [points.push].  A throw of
    [pat.fn] ends the whole call, so [None] stays [None]. *)
Definition preview_body (pat : Pattern) (numPoints : nat) (duration : R)
    (i : nat) (points : option (list (R * R * R))) : option (list (R * R * R)) :=
  match points with
  | None => None
  | Some pts =>
      let t := (INR i / INR numPoints) * duration in
      match fn pat t (params pat) with
      | Some p => Some (pts ++ [(Setpoint.x p, Setpoint.y p, Setpoint.z p)])
      | None => None
      end
  end.

Definition generatePreview (patternKey : string) (numPoints : nat) (duration : R)
    : option (list (R * R * R)) :=
  match patterns patternKey with
  | None => Some []
  | Some pat =>
      JS.for_le 0 numPoints (preview_body pat numPoints duration) (Some [])
  end.

(** The keyboard accumulators [kbTarget] and [kbVel], both of the shape
    [{ x, y, z, yaw }]. *)
Module Kb.
Record t : Type := mk { x : R; y : R; z : R; yaw : R }.
End Kb.

Module KbState.
Record t : Type := mk { kbTarget : Kb.t; kbVel : Kb.t }.
End KbState.

(** The module-level initial values. *)
Definition kbInit : KbState.t :=
  KbState.mk (Kb.mk 0 2 0 0) (Kb.mk 0 0 0 0).

(** [updateKeyboard(keys, dt)].  [keys] maps a key code to whether it is
    held ([keys[code]] truthy).  The eight [if] statements assign in source
    order, so a later one overrides an earlier one. *)
Definition updateKeyboard (keys : string -> bool) (dt : R) (st : KbState.t)
    : Setpoint.t * KbState.t :=
  let speed := 3.0 in
  let yawSpeed := 1.5 in
  let vx := 0 in
  let vy := 0 in
  let vz := 0 in
  let vyaw := 0 in
  let vz := if keys "KeyW"%string || keys "ArrowUp"%string then - speed else vz in
  let vz := if keys "KeyS"%string || keys "ArrowDown"%string then speed else vz in
  let vx := if keys "KeyA"%string || keys "ArrowLeft"%string then - speed else vx in
  let vx := if keys "KeyD"%string || keys "ArrowRight"%string then speed else vx in
  let vy := if keys "Space"%string then speed else vy in
  let vy := if keys "ShiftLeft"%string || keys "ShiftRight"%string then - speed else vy in
  let vyaw := if keys "KeyQ"%string then - yawSpeed else vyaw in
  let vyaw := if keys "KeyE"%string then yawSpeed else vyaw in
  let tg := KbState.kbTarget st in
  let x := Kb.x tg + vx * dt in
  let y := Rmax 0 (Kb.y tg + vy * dt) in
  let z := Kb.z tg + vz * dt in
  let yaw := Kb.yaw tg + vyaw * dt in
  (Setpoint.mk x y z (Some vx) (Some vy) (Some vz) (Some yaw),
   KbState.mk (Kb.mk x y z yaw) (Kb.mk vx vy vz vyaw)).

(** [resetKeyboard] replaces [kbTarget] and leaves [kbVel]. *)
Definition resetKeyboard (st : KbState.t) : KbState.t :=
  KbState.mk (Kb.mk 0 2 0 0) (KbState.kbVel st).

End Trajectories.

(* ===================================================================== *)
(** ** app.js: the parts of [simStep] that do not touch the page *)
(* ===================================================================== *)

Module App.

Import Physics Controllers.

(** [const DT = 1 / 120] *)
Definition DT : R := 1 / 120.

(** The [windEnv] object built in [simStep]. *)
Definition windEnv (windIntensity simTime : R) : Env.t :=
  Env.mk
    (Some (windIntensity * (sin (simTime * 1.7) * 0.5 + sin (simTime * 0.3) * 0.5)))
    (Some (windIntensity * sin (simTime * 0.8) * 0.3))
    (Some (windIntensity * (cos (simTime * 1.2) * 0.4 + sin (simTime * 2.1) * 0.3))).


End App.

(* ===================================================================== *)
(** ** The predictive outer loop as the specification writes it *)
(* ===================================================================== *)

(** Section 4.3.4 of the specification gives the acceleration command of one
    axis as a quotient of two finite sums over [k = 1..N].  These
    definitions follow that text; [Controllers.solve1D] follows the loop of
    the source.  The two are compared below. *)
Module MPCSpec.

(** [Σ_{k=1..n} f k] *)
Fixpoint sum_1_to (n : nat) (f : nat -> R) : R :=
  match n with
  | O => 0
  | S n' => sum_1_to n' f + f (S n')
  end.

(** [w_k = 1 − 0.3·(k−1)/N] *)
Definition w (N k : nat) : R := 1 - 0.3 * (INR k - 1) / INR N.

(** [e_k = refFn(t_now + k·dt_pred) − (pos + vel·k·dt_pred)] *)
Definition e (refFn : R -> R) (t_now dt_pred pos vel : R) (k : nat) : R :=
  refFn (t_now + INR k * dt_pred) - (pos + vel * (INR k * dt_pred)).

(** [a_des = Σ w_k·(Q_pos·e_k − Q_vel·vel) / (Σ w_k · (1 + R))],
    with [dt_pred = 2·dt]. *)
Definition a_des (N : nat) (Q_pos Q_vel R_ : R) (refFn : R -> R)
    (t_now dt pos vel : R) : R :=
  let dt_pred := 2 * dt in
  sum_1_to N (fun k => w N k * (Q_pos * e refFn t_now dt_pred pos vel k - Q_vel * vel))
  / (sum_1_to N (w N) * (1 + R_)).

End MPCSpec.


(* ===================================================================== *)
(** ** Vocabulary of the properties *)
(* ===================================================================== *)

Module Vocabulary.

Import Physics Controllers.

(** [u[0]], the thrust of an input vector. *)
Definition thrust (u : Input) : R := let '(T, _, _, _) := u in T.


(** The gain panel writes one key of the gains object per slider
    ([currentGains[def.key] = parseFloat(slider.value)]).  [with_xy] is the
    gains object after the three "XZ" sliders were set, [with_z] after the
    three "altitude" sliders were set. *)
Definition with_xy (G : Gains.t) (Kp Ki Kd : R) : Gains.t :=
  Gains.mk Kp Ki Kd
    (Gains.Kp_z G) (Gains.Ki_z G) (Gains.Kd_z G)
    (Gains.Kp_att G) (Gains.Kd_att G) (Gains.Kp_yaw G) (Gains.Kd_yaw G)
    (Gains.iMax G)
    (Gains.lambda_xy G) (Gains.lambda_z G) (Gains.eta_xy G) (Gains.eta_z G)
    (Gains.phi_xy G) (Gains.phi_z G) (Gains.lambda_att G) (Gains.eta_att G)
    (Gains.phi_att G)
    (Gains.alpha1_xy G) (Gains.alpha2_xy G) (Gains.alpha1_z G) (Gains.alpha2_z G)
    (Gains.alpha1_att G) (Gains.alpha2_att G)
    (Gains.N G) (Gains.Q_pos G) (Gains.Q_vel G) (Gains.R G).

Definition with_z (G : Gains.t) (Kp Ki Kd : R) : Gains.t :=
  Gains.mk (Gains.Kp_xy G) (Gains.Ki_xy G) (Gains.Kd_xy G)
    Kp Ki Kd
    (Gains.Kp_att G) (Gains.Kd_att G) (Gains.Kp_yaw G) (Gains.Kd_yaw G)
    (Gains.iMax G)
    (Gains.lambda_xy G) (Gains.lambda_z G) (Gains.eta_xy G) (Gains.eta_z G)
    (Gains.phi_xy G) (Gains.phi_z G) (Gains.lambda_att G) (Gains.eta_att G)
    (Gains.phi_att G)
    (Gains.alpha1_xy G) (Gains.alpha2_xy G) (Gains.alpha1_z G) (Gains.alpha2_z G)
    (Gains.alpha1_att G) (Gains.alpha2_att G)
    (Gains.N G) (Gains.Q_pos G) (Gains.Q_vel G) (Gains.R G).

(** The twelve scalars of [a] are those of [b]. *)
Definition sameScalars (a b : State.t) : Prop :=
  State.x a = State.x b /\ State.y a = State.y b /\ State.z a = State.z b /\
  State.vx a = State.vx b /\ State.vy a = State.vy b /\ State.vz a = State.vz b /\
  State.phi a = State.phi b /\ State.theta a = State.theta b /\
  State.psi a = State.psi b /\
  State.p a = State.p b /\ State.q a = State.q b /\ State.r a = State.r b.

(** Attitude and body rates of [a] are those of [b]. *)
Definition sameRotation (a b : State.t) : Prop :=
  State.phi a = State.phi b /\ State.theta a = State.theta b /\
  State.psi a = State.psi b /\
  State.p a = State.p b /\ State.q a = State.q b /\ State.r a = State.r b.

(** Not moving, not turning, roll and pitch zero. *)
Definition levelAtRest (s : State.t) : Prop :=
  State.vx s = 0 /\ State.vy s = 0 /\ State.vz s = 0 /\
  State.phi s = 0 /\ State.theta s = 0 /\
  State.p s = 0 /\ State.q s = 0 /\ State.r s = 0.

Definition notTurning (s : State.t) : Prop :=
  State.p s = 0 /\ State.q s = 0 /\ State.r s = 0.

(** Each wind component reads as zero ([env.windX || 0]). *)
Definition windless (env : Env.t) : Prop :=
  JS.or0 (Env.windX env) = 0 /\ JS.or0 (Env.windY env) = 0 /\
  JS.or0 (Env.windZ env) = 0.

(** The weight as thrust, no torque. *)
Definition hoverInput : Input := (m * g, 0, 0, 0).

(** The derivative of a state in equilibrium. *)
Definition zeroDeriv : Deriv.t := Deriv.mk 0 0 0 0 0 0 0 0 0 0 0 0.

(** The locals [k1] .. [k4] of [step]. *)
Definition stage1 (s : State.t) (u : Input) (env : Env.t) (dt : R) : Deriv.t :=
  derivatives s u env.

Definition stage2 (s : State.t) (u : Input) (env : Env.t) (dt : R) : Deriv.t :=
  derivatives (addScaled s (stage1 s u env dt) (dt / 2)) u env.

Definition stage3 (s : State.t) (u : Input) (env : Env.t) (dt : R) : Deriv.t :=
  derivatives (addScaled s (stage2 s u env dt) (dt / 2)) u env.

Definition stage4 (s : State.t) (u : Input) (env : Env.t) (dt : R) : Deriv.t :=
  derivatives (addScaled s (stage3 s u env dt) dt) u env.

(** [n] successive calls of [computePID] on a drone held in place: the same
    state and target each time, the controller state carried over. *)
Fixpoint pidTicks (n : nat) (state : State.t) (target : Setpoint.t)
    (G : Gains.t) (dt : R) (intState : IntState.t) : IntState.t :=
  match n with
  | O => intState
  | S n' =>
      snd (computePID state target G dt (pidTicks n' state target G dt intState))
  end.

(** The integrator of one axis after [n] calls at the constant error [e],
    started at [i0], with the limit [L]. *)
Definition heldIntegrator (i0 e dt : R) (n : nat) (L : R) : R :=
  clamp (i0 + INR n * (e * dt)) (- L) L.

(** The drone is where the setpoint is, the setpoint asks for no velocity
    and no yaw, and the drone has no yaw. *)
Definition onTarget (state : State.t) (target : Setpoint.t) : Prop :=
  Setpoint.x target = State.x state /\
  Setpoint.y target = State.y state /\
  Setpoint.z target = State.z state /\
  JS.or0 (Setpoint.vx target) = 0 /\
  JS.or0 (Setpoint.vy target) = 0 /\
  JS.or0 (Setpoint.vz target) = 0 /\
  JS.or0 (Setpoint.yaw target) = 0 /\
  State.psi state = 0.

(** The lookahead always shows the position of the target. *)
Definition holdsTarget (trajectoryFn : option (R -> Setpoint.t))
    (target : Setpoint.t) : Prop :=
  forall t : R,
    Setpoint.x (mpcRef trajectoryFn target t) = Setpoint.x target /\
    Setpoint.y (mpcRef trajectoryFn target t) = Setpoint.y target /\
    Setpoint.z (mpcRef trajectoryFn target t) = Setpoint.z target.

(** The integrators of the PID and the accumulators of the super-twisting
    controller are zero. *)
Definition settled (i : IntState.t) : Prop :=
  IntState.iEx i = 0 /\ IntState.iEy i = 0 /\ IntState.iEz i = 0 /\
  IntState.v_x i = 0 /\ IntState.v_y i = 0 /\ IntState.v_z i = 0 /\
  IntState.v_phi i = 0 /\ IntState.v_theta i = 0 /\ IntState.v_psi i = 0.

(** What a controller call leaves alone: integrators, accumulators and the
    published prediction of [a] are those of [b]. *)
Definition sameMemory (a b : IntState.t) : Prop :=
  IntState.iEx a = IntState.iEx b /\ IntState.iEy a = IntState.iEy b /\
  IntState.iEz a = IntState.iEz b /\
  IntState.v_x a = IntState.v_x b /\ IntState.v_y a = IntState.v_y b /\
  IntState.v_z a = IntState.v_z b /\
  IntState.v_phi a = IntState.v_phi b /\
  IntState.v_theta a = IntState.v_theta b /\
  IntState.v_psi a = IntState.v_psi b /\
  IntState.mpcPrediction a = IntState.mpcPrediction b.

(** The four [case] labels of [compute]. *)
Definition knownAlgo (algo : string) : Prop :=
  algo = "PID"%string \/ algo = "SMC"%string \/
  algo = "STS"%string \/ algo = "MPC"%string.

(** The entry that the prediction loop pushes at step [k]. *)
Definition rollout (state : State.t) (loc : Locals.t) (dtPred : R) (k : nat)
    : Point.t :=
  Point.mk
    (State.x state + State.vx state * (INR k * dtPred)
     + 0.5 * Locals.ax_des loc * (INR k * dtPred) ^ 2)
    (State.y state + State.vy state * (INR k * dtPred)
     + 0.5 * Locals.ay_des loc * (INR k * dtPred) ^ 2)
    (State.z state + State.vz state * (INR k * dtPred)
     + 0.5 * Locals.az_des loc * (INR k * dtPred) ^ 2).


(** The feed-forward velocity of [f] is, at every time, the derivative of
    its position. *)
Definition velocityIsDerivative (f : R -> Setpoint.t) : Prop :=
  forall t : R,
    exists vx vy vz : R,
      Setpoint.vx (f t) = Some vx /\ Setpoint.vy (f t) = Some vy /\
      Setpoint.vz (f t) = Some vz /\
      derivable_pt_lim (fun u => Setpoint.x (f u)) t vx /\
      derivable_pt_lim (fun u => Setpoint.y (f u)) t vy /\
      derivable_pt_lim (fun u => Setpoint.z (f u)) t vz.

(** The position of a setpoint, as [generatePreview] pushes it. *)
Definition position (p : Setpoint.t) : R * R * R :=
  (Setpoint.x p, Setpoint.y p, Setpoint.z p).

(** The walker's segment-local time is not negative and its segment index
    is below the number of waypoints (below 1 when there is none). *)
Definition walkerOk (w : Trajectories.Walker.t) : Prop :=
  0 <= Trajectories.Walker.customT w /\
  (Trajectories.Walker.customIdx w
   < Nat.max 1 (List.length (Trajectories.Walker.customWaypoints w)))%nat.

(** The waypoint the walker is leaving and the one it is heading for. *)
Definition leaving (w : Trajectories.Walker.t) : R * R * R :=
  nth (Trajectories.Walker.customIdx w
       mod List.length (Trajectories.Walker.customWaypoints w))
      (Trajectories.Walker.customWaypoints w) (0, 0, 0).

Definition heading (w : Trajectories.Walker.t) : R * R * R :=
  nth ((Trajectories.Walker.customIdx w + 1)
       mod List.length (Trajectories.Walker.customWaypoints w))
      (Trajectories.Walker.customWaypoints w) (0, 0, 0).

(** No key is held. *)
Definition noKey (keys : string -> bool) : Prop :=
  forall code : string, keys code = false.

(** The walker after the calls [evaluateCustom(t)] for the times [ts], in
    order. *)
Definition walkerRun (ts : list R) (w : Trajectories.Walker.t)
    : Trajectories.Walker.t :=
  fold_left (fun w' t => snd (Trajectories.evaluateCustom t w')) ts w.

(** The point at the fraction [s] of the way from [a] to [b]. *)
Definition between (a b : R * R * R) (s : R) : R * R * R :=
  let '(a0, a1, a2) := a in
  let '(b0, b1, b2) := b in
  (a0 + (b0 - a0) * s, a1 + (b1 - a1) * s, a2 + (b2 - a2) * s).

(** The length of the segment the walker is on. *)
Definition segLength (w : Trajectories.Walker.t) : R :=
  let '(c0, c1, c2) := leaving w in
  let '(n0, n1, n2) := heading w in
  sqrt ((n0 - c0) * (n0 - c0) + (n1 - c1) * (n1 - c1) + (n2 - c2) * (n2 - c2)).

(** The plant stepped once per entry of [envs], in order, under the constant
    input [u]. *)
Definition stepMany (u : Physics.Input) (dt : R) (envs : list Physics.Env.t)
    (s : Physics.State.t) : Physics.State.t :=
  fold_left (fun s' env => Physics.step s' u env dt) envs s.

End Vocabulary.

(** Concrete situations at which the properties are exercised. *)
Module Scenarios.

Import Physics Controllers Trajectories.

(** [DT] of app.js: the 120 Hz physics timestep. *)
Definition DT : R := 1 / 120.

(** On the ground, sinking at 1 m/s. *)
Definition sinking : State.t :=
  State.mk 0 0 0  0 (-1) 0  0 0 0  0 0 0 [0; 0; 0; 0].

Definition motorsOff : Input := (0, 0, 0, 0).

Definition calm : Env.t := Env.mk None None None.

(** A position-only setpoint one metre beside and one metre above the
    origin. *)
Definition beside_above : Setpoint.t := Setpoint.mk 1 1 0 None None None None.

(** At the origin, moving along x at 2.5 m/s, towards a position-only
    setpoint one metre ahead on x. *)
Definition closing : State.t :=
  State.mk 0 0 0  2.5 0 0  0 0 0  0 0 0 [0; 0; 0; 0].

Definition ahead : Setpoint.t := Setpoint.mk 1 0 0 None None None None.

(** Walkers with no, one and two waypoints, freshly set. *)
Definition noWaypoint : Walker.t := setCustomWaypoints [] (Walker.mk [] 0 0).


Definition twoWaypoints : Walker.t :=
  setCustomWaypoints [(0, 3, 0); (1, 3, 0)] noWaypoint.

(** Hovering three metres up, two metres aside, turned a quarter radian. *)
Definition hovering : State.t :=
  State.mk 2 3 0  0 0 0  0 0 0.25  0 0 0 [0; 0; 0; 0].

(** The position-only setpoint where [hovering] would be without its yaw. *)
Definition level_hover : State.t :=
  State.mk 2 3 0  0 0 0  0 0 0  0 0 0 [0; 0; 0; 0].

Definition here : Setpoint.t := Setpoint.mk 2 3 0 None None None None.

End Scenarios.

(* ===================================================================== *)
(** * Properties *)
(* ===================================================================== *)

Module JSFacts.

(** Running one more iteration is applying the body once more at the end. *)
Lemma for_steps_snoc {S : Type} (body : nat -> S -> S) :
  forall n k st,
    JS.for_steps (Datatypes.S n) k body st
    = body (k + n)%nat (JS.for_steps n k body st).
Proof.
  induction n as [|n IH]; intros k st.
  - simpl. now rewrite Nat.add_0_r.
  - change (JS.for_steps (Datatypes.S (Datatypes.S n)) k body st)
      with (JS.for_steps (Datatypes.S n) (Datatypes.S k) body (body k st)).
    rewrite IH. simpl. now rewrite Nat.add_succ_r.
Qed.

Lemma for_le_0 {S : Type} (hi : nat) (body : nat -> S -> S) (st : S) :
  JS.for_le 0 hi body st = JS.for_steps (Datatypes.S hi) 0 body st.
Proof. reflexivity. Qed.

Lemma for_le_1 {S : Type} (hi : nat) (body : nat -> S -> S) (st : S) :
  JS.for_le 1 hi body st = JS.for_steps hi 1 body st.
Proof. unfold JS.for_le. simpl. now rewrite Nat.sub_0_r. Qed.

End JSFacts.

Module PhysicsFacts.

Import Physics Scenarios.

Lemma clamp_bounds (v lo hi : R) : lo <= hi -> lo <= clamp v lo hi <= hi.
Proof.
  intros Hle. unfold clamp. split.
  - apply Rmax_l.
  - apply Rmax_lub; [exact Hle | apply Rmin_l].
Qed.

Lemma clamp_id (v lo hi : R) : lo <= v <= hi -> clamp v lo hi = v.
Proof.
  intros [Hlo Hhi]. unfold clamp.
  rewrite (Rmin_right hi v Hhi). now apply Rmax_right.
Qed.

Lemma wMaxSq_nonneg : 0 <= PARAMS.wMax * PARAMS.wMax.
Proof. unfold PARAMS.wMax. lra. Qed.

(** The speed of one motor, [Math.sqrt(clamp(wsq, 0, wMaxSq))], is between
    [0] and [wMax]. *)
Lemma motor_speed_bounds (wsq : R) :
  0 <= sqrt (clamp wsq 0 (PARAMS.wMax * PARAMS.wMax)) <= PARAMS.wMax.
Proof.
  destruct (clamp_bounds wsq 0 _ wMaxSq_nonneg) as [_ Hhi].
  split; [apply sqrt_pos|].
  apply sqrt_le_1_alt in Hhi.
  rewrite sqrt_square in Hhi by (unfold PARAMS.wMax; lra).
  exact Hhi.
Qed.

(** Squaring the speed of an unsaturated motor returns the requested
    squared speed. *)
Lemma motor_speed_square (wsq : R) :
  inRange wsq ->
  let w := sqrt (clamp wsq 0 (PARAMS.wMax * PARAMS.wMax)) in
  w * w = wsq.
Proof.
  intros Hr w. subst w. rewrite (clamp_id _ _ _ Hr).
  apply sqrt_sqrt. apply Hr.
Qed.

(** The algebra behind the round trip, for any nonzero coefficients: the
    mixing matrix applied to the four unclamped squared speeds gives back
    [(T, τφ, τθ, τψ)]. *)
Section MixingAlgebra.

Variables kT kD L : R.
Hypothesis kT_nonzero : kT <> 0.
Hypothesis kD_nonzero : kD <> 0.
Hypothesis L_nonzero : L <> 0.

Variables T tp tt ts : R.

Let s2 := sqrt 2.
Let a := T / (4 * kT).
Let b := tp * s2 / (4 * kT * L).
Let c := tt * s2 / (4 * kT * L).
Let d := ts / (4 * kD).

Lemma mix_thrust :
  kT * ((a - b - c - d) + (a - b + c + d) + (a + b + c - d) + (a + b - c + d)) = T.
Proof. subst a b c d. field. auto. Qed.

Lemma mix_roll :
  kT * L * (- (a - b - c - d) - (a - b + c + d) + (a + b + c - d) + (a + b - c + d))
  / s2 = tp.
Proof.
  assert (Hs2 : s2 <> 0) by apply sqrt2_neq_0.
  subst a b c d. field. auto.
Qed.

Lemma mix_pitch :
  kT * L * (- (a - b - c - d) + (a - b + c + d) + (a + b + c - d) - (a + b - c + d))
  / s2 = tt.
Proof.
  assert (Hs2 : s2 <> 0) by apply sqrt2_neq_0.
  subst a b c d. field. auto.
Qed.

Lemma mix_yaw :
  kD * (- (a - b - c - d) + (a - b + c + d) - (a + b + c - d) + (a + b - c + d)) = ts.
Proof. subst a b c d. field. auto. Qed.

End MixingAlgebra.

(** C2.  Motor allocation followed by the forward X-configuration mixing
    reproduces the input [(T, τφ, τθ, τψ)] whenever none of the four
    squared speeds [a∓b∓c∓d] leaves [[0, wMax²]] (in real arithmetic). *)
Theorem allocate_then_mix_roundtrip (T tauPhi tauTheta tauPsi : R) :
  unsaturated T tauPhi tauTheta tauPsi ->
  mixing (allocateMotors T tauPhi tauTheta tauPsi)
  = Some (T, tauPhi, tauTheta, tauPsi).
Proof.
  unfold unsaturated, allocateMotors.
  destruct (motorSquares T tauPhi tauTheta tauPsi)
    as [[[w1 w2] w3] w4] eqn:Hsq.
  intros (H1 & H2 & H3 & H4).
  cbv beta iota zeta. unfold mixing.
  rewrite (motor_speed_square w1 H1), (motor_speed_square w2 H2),
          (motor_speed_square w3 H3), (motor_speed_square w4 H4).
  unfold motorSquares in Hsq. cbv zeta in Hsq.
  injection Hsq as <- <- <- <-.
  assert (HkT : PARAMS.kT <> 0) by (unfold PARAMS.kT; lra).
  assert (HkD : PARAMS.kD <> 0) by (unfold PARAMS.kD; lra).
  assert (HL : PARAMS.L <> 0) by (unfold PARAMS.L; lra).
  rewrite (mix_thrust PARAMS.kT PARAMS.kD PARAMS.L HkT HkD HL),
          (mix_roll PARAMS.kT PARAMS.kD PARAMS.L HkT HkD HL),
          (mix_pitch PARAMS.kT PARAMS.kD PARAMS.L HkT HkD HL),
          (mix_yaw PARAMS.kT PARAMS.kD PARAMS.L HkT HkD HL).
  reflexivity.
Qed.

Lemma allocate_then_mix_roundtrip_witness :
  unsaturated (0.5 * 9.81) 0 0 0 /\
  mixing (allocateMotors (0.5 * 9.81) 0 0 0) = Some (0.5 * 9.81, 0, 0, 0).
Proof.
  assert (H : unsaturated (0.5 * 9.81) 0 0 0).
  { unfold unsaturated, motorSquares, inRange, PARAMS.kT, PARAMS.kD, PARAMS.L,
      PARAMS.wMax.
    cbv zeta.
    replace (0 * sqrt 2 / (4 * 2.98e-6 * 0.17)) with 0 by (unfold Rdiv; ring).
    repeat split; lra. }
  split; [exact H|].
  apply (allocate_then_mix_roundtrip (0.5 * 9.81) 0 0 0). exact H.
Defined.

(** The ground-contact line leaves every component other than [y] and [vy]
    as it found it. *)
Lemma groundContact_others (s : State.t) :
  let s' := groundContact s in
  State.x s' = State.x s /\ State.z s' = State.z s /\
  State.vx s' = State.vx s /\ State.vz s' = State.vz s /\
  State.phi s' = State.phi s /\ State.theta s' = State.theta s /\
  State.psi s' = State.psi s /\
  State.p s' = State.p s /\ State.q s' = State.q s /\ State.r s' = State.r s.
Proof.
  unfold groundContact. destruct (Rlt_dec (State.y s) 0); simpl; tauto.
Qed.

Lemma groundContact_y_nonneg (s : State.t) : 0 <= State.y (groundContact s).
Proof.
  unfold groundContact. destruct (Rlt_dec (State.y s) 0); simpl; lra.
Qed.

Lemma groundContact_below (s : State.t) :
  State.y s < 0 ->
  State.y (groundContact s) = 0 /\
  State.vy (groundContact s) = Rmax 0 (State.vy s).
Proof.
  intros Hy. unfold groundContact.
  destruct (Rlt_dec (State.y s) 0); [simpl; auto | contradiction].
Qed.

(** Storing the motor speeds changes the [motors] field only. *)
Lemma storeMotors_scalars (s : State.t) (u : Input) :
  let s' := storeMotors s u in
  State.x s' = State.x s /\ State.y s' = State.y s /\ State.z s' = State.z s /\
  State.vx s' = State.vx s /\ State.vy s' = State.vy s /\
  State.vz s' = State.vz s /\
  State.phi s' = State.phi s /\ State.theta s' = State.theta s /\
  State.psi s' = State.psi s /\
  State.p s' = State.p s /\ State.q s' = State.q s /\ State.r s' = State.r s.
Proof.
  destruct u as [[[u0 u1] u2] u3]. simpl. tauto.
Qed.

(** The vertical position after the four stages, with the stage derivatives
    left folded. *)
Lemma rk4_y (s : State.t) (u : Input) (env : Env.t) (dt : R) :
  State.y (rk4 s u env dt)
  = State.y s
    + dt / 6 *
      (Deriv.dy (derivatives s u env)
       + 2 * Deriv.dy (derivatives (addScaled s (derivatives s u env) (dt / 2)) u env)
       + 2 * Deriv.dy
               (derivatives
                  (addScaled s
                     (derivatives (addScaled s (derivatives s u env) (dt / 2)) u env)
                     (dt / 2)) u env)
       + Deriv.dy
           (derivatives
              (addScaled s
                 (derivatives
                    (addScaled s
                       (derivatives (addScaled s (derivatives s u env) (dt / 2)) u env)
                       (dt / 2)) u env)
                 dt) u env)).
Proof. reflexivity. Qed.

Lemma derivatives_dy (s : State.t) (u : Input) (env : Env.t) :
  Deriv.dy (derivatives s u env) = State.vy s.
Proof. destruct u as [[[T a] b] c]. reflexivity. Qed.

Lemma addScaled_vy (s : State.t) (k : Deriv.t) (h : R) :
  State.vy (addScaled s k h) = State.vy s + Deriv.dvy k * h.
Proof. reflexivity. Qed.

(** With the motors off the vertical acceleration is gravity, drag and
    wind. *)
Lemma derivatives_dvy_zero_thrust (s : State.t) (a b c : R) (env : Env.t) :
  Deriv.dvy (derivatives s (0, a, b, c) env)
  = - PARAMS.g - PARAMS.Cd * State.vy s + JS.or0 (Env.windY env).
Proof. unfold derivatives. cbn [Deriv.dvy]. unfold Rdiv. ring. Qed.


(** C3.  After every plant step [y >= 0]; whenever the RK4 result has
    [y < 0] the stepped state has [y = 0] and [vy = max(0, vy)], and the ten
    other scalars of the stepped state are those of the RK4 result. *)
Theorem step_ground_clamp (s : State.t) (u : Input) (env : Env.t) (dt : R) :
  let i := rk4 s u env dt in
  let s' := step s u env dt in
  0 <= State.y s' /\
  (State.y i < 0 ->
   State.y s' = 0 /\ State.vy s' = Rmax 0 (State.vy i) /\
   State.x s' = State.x i /\ State.z s' = State.z i /\
   State.vx s' = State.vx i /\ State.vz s' = State.vz i /\
   State.phi s' = State.phi i /\ State.theta s' = State.theta i /\
   State.psi s' = State.psi i /\
   State.p s' = State.p i /\ State.q s' = State.q i /\ State.r s' = State.r i).
Proof.
  intros i s'. subst s'. unfold step. fold i.
  destruct (storeMotors_scalars (groundContact i) u)
    as (Sx & Sy & Sz & Svx & Svy & Svz & Sphi & Sth & Spsi & Sp & Sq & Sr).
  destruct (groundContact_others i)
    as (Gx & Gz & Gvx & Gvz & Gphi & Gth & Gpsi & Gp & Gq & Gr).
  split.
  - rewrite Sy. apply groundContact_y_nonneg.
  - intros Hy. destruct (groundContact_below i Hy) as [Gy Gvy].
    repeat split; congruence.
Qed.

(** A drone on the ground, sinking at 1 m/s with the motors off, is below
    the ground after the integration of one tick; the step puts it back on
    the ground and stops the descent. *)
Lemma step_ground_clamp_witness :
  State.y (rk4 sinking motorsOff calm DT) < 0 /\
  0 <= State.y (step sinking motorsOff calm DT) /\
  State.y (step sinking motorsOff calm DT) = 0 /\
  State.vy (step sinking motorsOff calm DT)
  = Rmax 0 (State.vy (rk4 sinking motorsOff calm DT)).
Proof.
  assert (H : State.y (rk4 sinking motorsOff calm DT) < 0).
  { rewrite rk4_y. unfold motorsOff.
    repeat (rewrite derivatives_dy || rewrite addScaled_vy
            || rewrite derivatives_dvy_zero_thrust).
    unfold sinking, calm, DT. simpl. unfold PARAMS.g, PARAMS.Cd. lra. }
  destruct (step_ground_clamp sinking motorsOff calm DT) as [H0 H1].
  destruct (H1 H) as (Hy & Hvy & _).
  repeat split; assumption.
Defined.

(** C4.  Each of the four motor speeds returned by [allocateMotors] lies in
    [[0, wMax]]; hence so does every entry of the [motors] array that a
    plant step stores. *)
Theorem motor_speeds_bounded :
  (forall T tauPhi tauTheta tauPsi : R,
      List.length (allocateMotors T tauPhi tauTheta tauPsi) = 4%nat /\
      Forall (fun w => 0 <= w <= PARAMS.wMax)
             (allocateMotors T tauPhi tauTheta tauPsi)) /\
  (forall (s : State.t) (u : Input) (env : Env.t) (dt : R),
      Forall (fun w => 0 <= w <= PARAMS.wMax) (State.motors (step s u env dt))).
Proof.
  assert (A : forall T tauPhi tauTheta tauPsi : R,
      List.length (allocateMotors T tauPhi tauTheta tauPsi) = 4%nat /\
      Forall (fun w => 0 <= w <= PARAMS.wMax)
             (allocateMotors T tauPhi tauTheta tauPsi)).
  { intros T tp tt ts. unfold allocateMotors.
    destruct (motorSquares T tp tt ts) as [[[w1 w2] w3] w4].
    split; [reflexivity|].
    repeat (apply Forall_cons; [apply motor_speed_bounds|]).
    apply Forall_nil. }
  split; [exact A|].
  intros s [[[u0 u1] u2] u3] env dt. unfold step, storeMotors. simpl.
  apply A.
Qed.

End PhysicsFacts.

Module ControllersFacts.

Import Physics Controllers Vocabulary Scenarios PhysicsFacts.

Lemma sign_0 : sign 0 = 0.
Proof.
  unfold sign. destruct (Rlt_dec 0 0) as [H|_]; [lra|].
  destruct (Rlt_dec 0 0) as [H|_]; [lra|reflexivity].
Qed.

Lemma sat_0_boundary (phi : R) : phi <= 0 -> sat 0 phi = 0.
Proof.
  intros Hphi. unfold sat.
  destruct (Rle_dec phi 0) as [_|H]; [apply sign_0 | contradiction].
Qed.








(** The thrust each controller returns is the [T] of its locals. *)
Lemma thrust_computePID state target G dt intState :
  thrust (fst (computePID state target G dt intState))
  = Locals.T (fst (pidOuter state target G dt intState)).
Proof. reflexivity. Qed.

Lemma thrust_computeSMC state target G dt intState :
  thrust (fst (computeSMC state target G dt intState))
  = Locals.T (fst (smcOuter state target G)).
Proof. reflexivity. Qed.

Lemma thrust_computeSTS state target G dt intState :
  thrust (fst (computeSTS state target G dt intState))
  = Locals.T (fst (fst (stsOuter state target G dt intState))).
Proof. reflexivity. Qed.

Lemma thrust_computeMPC state target G dt trajectoryFn time intState :
  thrust (fst (computeMPC state target G dt trajectoryFn time intState))
  = Locals.T (mpcOuter state target G dt trajectoryFn time).
Proof. reflexivity. Qed.



(* --------------------------------------------------------------------- *)
(** *** PID gain routing *)

(** The integrators and desired accelerations of the PID outer loop, read
    off the source. *)
Lemma pidOuter_accels state target G dt intState :
  let ex := Setpoint.x target - State.x state in
  let ey := Setpoint.y target - State.y state in
  let ez := Setpoint.z target - State.z state in
  let evx := JS.or0 (Setpoint.vx target) - State.vx state in
  let evy := JS.or0 (Setpoint.vy target) - State.vy state in
  let evz := JS.or0 (Setpoint.vz target) - State.vz state in
  let lim := Gains.iMax G in
  let loc := fst (pidOuter state target G dt intState) in
  let iE := snd (pidOuter state target G dt intState) in
  (Axes.x iE = clamp (IntState.iEx intState + ex * dt) (- lim) lim /\
   Axes.y iE = clamp (IntState.iEy intState + ey * dt) (- lim) lim /\
   Axes.z iE = clamp (IntState.iEz intState + ez * dt) (- lim) lim) /\
  Locals.ax_des loc
  = Gains.Kp_xy G * ex + Gains.Ki_xy G * Axes.x iE + Gains.Kd_xy G * evx /\
  Locals.ay_des loc
  = Gains.Kp_z G * ey + Gains.Ki_z G * Axes.y iE + Gains.Kd_z G * evy /\
  Locals.az_des loc
  = Gains.Kp_xy G * ez + Gains.Ki_xy G * Axes.z iE + Gains.Kd_xy G * evz.
Proof. repeat split. Qed.

(** C1 (as amended).  In the PID outer loop the altitude channel [ay_des] is
    computed with the triple [Kp_z], [Ki_z], [Kd_z] and the horizontal
    channels [ax_des], [az_des] with the triple [Kp_xy], [Ki_xy], [Kd_xy],
    for every state, target, gain set and [dt]: each channel is the sum
    [Kp·e + Ki·∫e + Kd·ė] with its triple, the altitude channel is the same
    whatever the [_xy] triple is set to, and the horizontal channels are the
    same whatever the [_z] triple is set to. *)
Theorem pid_gain_routing
    (state : State.t) (target : Setpoint.t) (G : Gains.t) (dt : R)
    (intState : IntState.t) :
  let ex := Setpoint.x target - State.x state in
  let ey := Setpoint.y target - State.y state in
  let ez := Setpoint.z target - State.z state in
  let evx := JS.or0 (Setpoint.vx target) - State.vx state in
  let evy := JS.or0 (Setpoint.vy target) - State.vy state in
  let evz := JS.or0 (Setpoint.vz target) - State.vz state in
  let loc := fst (pidOuter state target G dt intState) in
  let iE := snd (pidOuter state target G dt intState) in
  (Locals.ay_des loc
   = Gains.Kp_z G * ey + Gains.Ki_z G * Axes.y iE + Gains.Kd_z G * evy /\
   Locals.ax_des loc
   = Gains.Kp_xy G * ex + Gains.Ki_xy G * Axes.x iE + Gains.Kd_xy G * evx /\
   Locals.az_des loc
   = Gains.Kp_xy G * ez + Gains.Ki_xy G * Axes.z iE + Gains.Kd_xy G * evz) /\
  (forall Kp Ki Kd : R,
      Locals.ay_des (fst (pidOuter state target (with_xy G Kp Ki Kd) dt intState))
      = Locals.ay_des loc) /\
  (forall Kp Ki Kd : R,
      Locals.ax_des (fst (pidOuter state target (with_z G Kp Ki Kd) dt intState))
      = Locals.ax_des loc /\
      Locals.az_des (fst (pidOuter state target (with_z G Kp Ki Kd) dt intState))
      = Locals.az_des loc).
Proof.
  intros ex ey ez evx evy evz loc iE. subst loc iE.
  destruct (pidOuter_accels state target G dt intState)
    as ((Jx & Jy & Jz) & Hx & Hy & Hz).
  cbv zeta in *.
  split; [auto|]. split.
  - intros Kp Ki Kd.
    destruct (pidOuter_accels state target (with_xy G Kp Ki Kd) dt intState)
      as ((_ & Iy & _) & _ & Hy' & _).
    cbv zeta in *. rewrite Hy', Iy, Hy, Jy. reflexivity.
  - intros Kp Ki Kd.
    destruct (pidOuter_accels state target (with_z G Kp Ki Kd) dt intState)
      as ((Ix & _ & Iz) & Hx' & _ & Hz').
    cbv zeta in *. rewrite Hx', Hz', Ix, Iz, Hx, Hz, Jx, Jz.
    split; reflexivity.
Qed.

(** After the first tick from rest at the origin, one metre off the
    setpoint, the integrator of an axis holds 1/120. *)
Lemma first_tick_integrator : clamp (0 + (1 - 0) * (1 / 120)) (- (2.0)) 2.0 = 1 / 120.
Proof. rewrite clamp_id; lra. Qed.

(** C1 (as stated) fails.  From rest at the origin with the default gains
    and a setpoint one metre above, the altitude channel is
    [Kp_z·1 + Ki_z/120], which is not the value [Kp_xy·1 + Ki_xy/120] that
    the [_xy] triple gives; the setpoint being also one metre beside, the x
    channel is not the value that the [_z] triple gives. *)
Lemma pid_gain_crosswiring_refuted :
  Locals.ay_des (fst (pidOuter createState beside_above defaultGains DT resetInternal))
  <> Gains.Kp_xy defaultGains * (Setpoint.y beside_above - State.y createState)
     + Gains.Ki_xy defaultGains
       * Axes.y (snd (pidOuter createState beside_above defaultGains DT resetInternal))
     + Gains.Kd_xy defaultGains
       * (JS.or0 (Setpoint.vy beside_above) - State.vy createState)
  /\
  Locals.ax_des (fst (pidOuter createState beside_above defaultGains DT resetInternal))
  <> Gains.Kp_z defaultGains * (Setpoint.x beside_above - State.x createState)
     + Gains.Ki_z defaultGains
       * Axes.x (snd (pidOuter createState beside_above defaultGains DT resetInternal))
     + Gains.Kd_z defaultGains
       * (JS.or0 (Setpoint.vx beside_above) - State.vx createState).
Proof.
  destruct (pidOuter_accels createState beside_above defaultGains DT resetInternal)
    as ((Ix & Iy & _) & Hx & Hy & _).
  cbv zeta in *. rewrite Hx, Hy, Ix, Iy.
  unfold DT. cbn. rewrite first_tick_integrator.
  split; lra.
Qed.

(* --------------------------------------------------------------------- *)
(** *** Sliding mode at the surface *)

(** The surfaces and desired accelerations of the SMC outer loop, read off
    the source. *)
Lemma smcOuter_axes state target G :
  let ex := Setpoint.x target - State.x state in
  let evx := JS.or0 (Setpoint.vx target) - State.vx state in
  let ey := Setpoint.y target - State.y state in
  let evy := JS.or0 (Setpoint.vy target) - State.vy state in
  let ez := Setpoint.z target - State.z state in
  let evz := JS.or0 (Setpoint.vz target) - State.vz state in
  let loc := fst (smcOuter state target G) in
  let s := snd (smcOuter state target G) in
  (Axes.x s = surface (Gains.lambda_xy G) ex evx /\
   Axes.y s = surface (Gains.lambda_z G) ey evy /\
   Axes.z s = surface (Gains.lambda_xy G) ez evz) /\
  Locals.ax_des loc
  = smcAxis (Gains.lambda_xy G) (Gains.eta_xy G) (Gains.phi_xy G) ex evx /\
  Locals.ay_des loc
  = smcAxis (Gains.lambda_z G) (Gains.eta_z G) (Gains.phi_z G) ey evy /\
  Locals.az_des loc
  = smcAxis (Gains.lambda_xy G) (Gains.eta_xy G) (Gains.phi_xy G) ez evz.
Proof. repeat split. Qed.

(** On the surface and without a boundary layer the switching function is
    zero and only the equivalent control [λ·ė] is left of one axis. *)
Lemma smcAxis_on_surface (lambda eta phi e ev : R) :
  phi <= 0 -> surface lambda e ev = 0 ->
  sat (surface lambda e ev) phi = 0 /\
  smcAxis lambda eta phi e ev = lambda * ev.
Proof.
  intros Hphi Hs. unfold smcAxis. rewrite Hs, (sat_0_boundary phi Hphi).
  split; [reflexivity | ring].
Qed.

(** C7 (as amended).  For the SMC controller with boundary-layer thickness
    [phi_bl = 0], whenever the sliding surface of a translational axis is
    zero the switching term [η·sat(s, phi_bl)] of that axis is zero (as
    [sign(0) = 0]) and its desired acceleration is the equivalent control
    [λ·(v_ref − v)]. *)
Theorem smc_on_surface_equivalent_control
    (state : State.t) (target : Setpoint.t) (G : Gains.t) :
  let evx := JS.or0 (Setpoint.vx target) - State.vx state in
  let evy := JS.or0 (Setpoint.vy target) - State.vy state in
  let evz := JS.or0 (Setpoint.vz target) - State.vz state in
  let loc := fst (smcOuter state target G) in
  let s := snd (smcOuter state target G) in
  (Gains.phi_xy G = 0 -> Axes.x s = 0 ->
   Gains.eta_xy G * sat (Axes.x s) (Gains.phi_xy G) = 0 /\
   Locals.ax_des loc = Gains.lambda_xy G * evx) /\
  (Gains.phi_z G = 0 -> Axes.y s = 0 ->
   Gains.eta_z G * sat (Axes.y s) (Gains.phi_z G) = 0 /\
   Locals.ay_des loc = Gains.lambda_z G * evy) /\
  (Gains.phi_xy G = 0 -> Axes.z s = 0 ->
   Gains.eta_xy G * sat (Axes.z s) (Gains.phi_xy G) = 0 /\
   Locals.az_des loc = Gains.lambda_xy G * evz).
Proof.
  intros evx evy evz loc s.
  destruct (smcOuter_axes state target G) as ((Sx & Sy & Sz) & Hx & Hy & Hz).
  cbv zeta in *. fold loc s in Sx, Sy, Sz, Hx, Hy, Hz.
  rewrite Hx, Hy, Hz, Sx, Sy, Sz.
  split; [|split]; intros Hphi Hs;
    pose proof (fun eta => smcAxis_on_surface _ eta _ _ _ (Req_le _ _ Hphi) Hs)
      as Hax;
    (split; [rewrite (proj1 (Hax 0)); ring | apply Hax]).
Qed.

(** The situation [closing]/[ahead] is on the x surface for the default
    slope [λ = 2.5], and at rest on the other two axes. *)
Lemma closing_on_surfaces :
  Axes.x (snd (smcOuter closing ahead defaultGains)) = 0 /\
  Axes.y (snd (smcOuter closing ahead defaultGains)) = 0 /\
  Axes.z (snd (smcOuter closing ahead defaultGains)) = 0.
Proof.
  destruct (smcOuter_axes closing ahead defaultGains) as ((Sx & Sy & Sz) & _).
  cbv zeta in *. rewrite Sx, Sy, Sz. unfold surface. cbn.
  repeat split; lra.
Qed.

Lemma smc_on_surface_equivalent_control_witness :
  Gains.phi_xy defaultGains = 0 /\ Gains.phi_z defaultGains = 0 /\
  Axes.x (snd (smcOuter closing ahead defaultGains)) = 0 /\
  Axes.y (snd (smcOuter closing ahead defaultGains)) = 0 /\
  Axes.z (snd (smcOuter closing ahead defaultGains)) = 0 /\
  Locals.ax_des (fst (smcOuter closing ahead defaultGains))
  = Gains.lambda_xy defaultGains * (JS.or0 (Setpoint.vx ahead) - State.vx closing) /\
  Locals.ay_des (fst (smcOuter closing ahead defaultGains))
  = Gains.lambda_z defaultGains * (JS.or0 (Setpoint.vy ahead) - State.vy closing) /\
  Locals.az_des (fst (smcOuter closing ahead defaultGains))
  = Gains.lambda_xy defaultGains * (JS.or0 (Setpoint.vz ahead) - State.vz closing).
Proof.
  assert (Hpxy : Gains.phi_xy defaultGains = 0) by (cbn; lra).
  assert (Hpz : Gains.phi_z defaultGains = 0) by (cbn; lra).
  destruct closing_on_surfaces as (Sx & Sy & Sz).
  destruct (smc_on_surface_equivalent_control closing ahead defaultGains)
    as (H1 & H2 & H3).
  destruct (H1 Hpxy Sx) as [_ A1].
  destruct (H2 Hpz Sy) as [_ A2].
  destruct (H3 Hpxy Sz) as [_ A3].
  repeat split; assumption.
Defined.

(** C7 (as stated) fails: in that situation the x surface is zero and the
    boundary layer is zero, yet the desired x acceleration is
    [2.5·(0 − 2.5) = −6.25], not zero. *)
Lemma smc_on_surface_zero_refuted :
  Gains.phi_xy defaultGains = 0 /\
  Axes.x (snd (smcOuter closing ahead defaultGains)) = 0 /\
  Locals.ax_des (fst (smcOuter closing ahead defaultGains)) = -6.25 /\
  Locals.ax_des (fst (smcOuter closing ahead defaultGains)) <> 0.
Proof.
  assert (Hp : Gains.phi_xy defaultGains = 0) by (cbn; lra).
  destruct closing_on_surfaces as (Sx & _).
  destruct (smcOuter_axes closing ahead defaultGains) as ((Ex & _) & Hx & _).
  cbv zeta in *. rewrite Ex in Sx.
  assert (Ha : Locals.ax_des (fst (smcOuter closing ahead defaultGains)) = -6.25).
  { rewrite Hx.
    destruct (smcAxis_on_surface _ (Gains.eta_xy defaultGains) _ _ _
                (Req_le _ _ Hp) Sx) as [_ ->].
    cbn. lra. }
  repeat split; try assumption. rewrite Ha. lra.
Qed.

(* --------------------------------------------------------------------- *)
(** *** The predictive outer loop *)

(** One axis solve, with the variables that the closure [solve1D] captures
    and its arguments fixed. *)
Section AxisSolve.

Variable N : nat.
Variables time dt pos vel : R.
Variable refFn : R -> R.
Variables Q_p Q_v R_ : R.

Let dtPred := dt * 2.
Let body := solve1D_body N time dtPred pos vel refFn Q_p Q_v.
Let term (k : nat) : R :=
  MPCSpec.w N k * (Q_p * MPCSpec.e refFn time dtPred pos vel k - Q_v * vel).

(** The weight the loop computes at step [k] is the [w_k] of the
    specification. *)
Lemma loop_weight (k : nat) : 1.0 - 0.3 * (INR k - 1) / INR N = MPCSpec.w N k.
Proof. unfold MPCSpec.w. lra. Qed.

(** One iteration adds the [k]-th term to each accumulator. *)
Lemma body_step (k : nat) (totalAccel weightSum : R) :
  body k (totalAccel, weightSum) = (totalAccel + term k, weightSum + MPCSpec.w N k).
Proof.
  subst body term. unfold solve1D_body, MPCSpec.e. cbv zeta.
  rewrite loop_weight. reflexivity.
Qed.

(** After [n] iterations from [k = 1] the two accumulators hold the two
    partial sums. *)
Lemma solve1D_loop (n : nat) :
  JS.for_steps n 1 body (0, 0)
  = (MPCSpec.sum_1_to n term, MPCSpec.sum_1_to n (MPCSpec.w N)).
Proof.
  induction n as [|n IH].
  - reflexivity.
  - rewrite JSFacts.for_steps_snoc, IH, body_step. reflexivity.
Qed.

(** [solve1D] computes the quotient of sums of the specification. *)
Lemma solve1D_closed_form :
  solve1D N time dtPred pos vel refFn Q_p Q_v R_
  = MPCSpec.a_des N Q_p Q_v R_ refFn time dt pos vel.
Proof.
  unfold solve1D, MPCSpec.a_des. fold body.
  rewrite JSFacts.for_le_1, solve1D_loop. subst term dtPred. cbv zeta.
  replace (2 * dt) with (dt * 2) by ring. reflexivity.
Qed.

End AxisSolve.

(** C6.  For each translational axis the MPC desired acceleration is
    [Σ_{k=1..N} w_k·(Q_pos·e_k − Q_vel·vel) / ((Σ_{k=1..N} w_k)·(1 + R))]
    with [w_k = 1 − 0.3·(k−1)/N],
    [e_k = refFn(t_now + k·dt_pred).axis − (pos + vel·k·dt_pred)] and
    [dt_pred = 2·dt], for every state, gain set, trajectory function and
    time. *)
Theorem mpc_accel_closed_form
    (state : State.t) (target : Setpoint.t) (G : Gains.t) (dt : R)
    (refFn : R -> Setpoint.t) (time : R) :
  let loc := mpcOuter state target G dt (Some refFn) time in
  let a_des axis pos vel :=
    MPCSpec.a_des (Gains.N G) (Gains.Q_pos G) (Gains.Q_vel G) (Gains.R G)
                  (fun t => axis (refFn t)) time dt pos vel in
  Locals.ax_des loc = a_des Setpoint.x (State.x state) (State.vx state) /\
  Locals.ay_des loc = a_des Setpoint.y (State.y state) (State.vy state) /\
  Locals.az_des loc = a_des Setpoint.z (State.z state) (State.vz state).
Proof.
  intros loc a_des. subst loc a_des. unfold mpcOuter, thrustAttitude.
  cbn [Locals.ax_des Locals.ay_des Locals.az_des mpcRef].
  rewrite !solve1D_closed_form. repeat split.
Qed.

(* --------------------------------------------------------------------- *)
(** *** The published prediction *)






End ControllersFacts.

Module TrajectoriesFacts.

Import Physics Controllers Trajectories Scenarios.







(* --------------------------------------------------------------------- *)
(** *** The custom walker *)




End TrajectoriesFacts.

(* ===================================================================== *)
(** * Proof steps shared by the modules below *)
(* ===================================================================== *)

Module Steps.

(** Split a goal into its conjuncts, and no further. *)
Ltac conjs := repeat match goal with |- _ /\ _ => split end.

(** Close an equation by one hypothesis, or by two in a row. *)
Ltac chain := solve [assumption | etransitivity; eassumption].

(** Decide every comparison that [sign], [sat], [Rmax], [Rmin] and [Rabs]
    make, and close the cases by linear arithmetic. *)
Ltac cases_lra :=
  repeat match goal with
         | |- context [Rlt_dec ?a ?b] => destruct (Rlt_dec a b)
         | |- context [Rle_dec ?a ?b] => destruct (Rle_dec a b)
         | |- context [Rcase_abs ?a] => destruct (Rcase_abs a)
         | H : context [Rlt_dec ?a ?b] |- _ => destruct (Rlt_dec a b)
         | H : context [Rle_dec ?a ?b] |- _ => destruct (Rle_dec a b)
         | H : context [Rcase_abs ?a] |- _ => destruct (Rcase_abs a)
         end;
  try lra;
  try solve [left; lra | right; left; lra | right; right; lra].

End Steps.

(* ===================================================================== *)
(** * Further properties of the plant *)
(* ===================================================================== *)

Module PlantFacts.

Import Physics Controllers Vocabulary Scenarios PhysicsFacts Steps.


(** Each scalar after the four stages is the old scalar plus the weighted
    sum of its four stage derivatives. *)
Lemma rk4_fields (s : State.t) (u : Input) (env : Env.t) (dt : R) :
  let comb (f : Deriv.t -> R) :=
    dt / 6 * (f (stage1 s u env dt) + 2 * f (stage2 s u env dt)
              + 2 * f (stage3 s u env dt) + f (stage4 s u env dt)) in
  let i := rk4 s u env dt in
  (State.x i = State.x s + comb Deriv.dx /\
   State.y i = State.y s + comb Deriv.dy /\
   State.z i = State.z s + comb Deriv.dz) /\
  (State.vx i = State.vx s + comb Deriv.dvx /\
   State.vy i = State.vy s + comb Deriv.dvy /\
   State.vz i = State.vz s + comb Deriv.dvz) /\
  (State.phi i = State.phi s + comb Deriv.dphi /\
   State.theta i = State.theta s + comb Deriv.dtheta /\
   State.psi i = State.psi s + comb Deriv.dpsi) /\
  (State.p i = State.p s + comb Deriv.dp /\
   State.q i = State.q s + comb Deriv.dq /\
   State.r i = State.r s + comb Deriv.dr).
Proof.
  cbv beta zeta delta [rk4 stage1 stage2 stage3 stage4].
  cbn [State.x State.y State.z State.vx State.vy State.vz
       State.phi State.theta State.psi State.p State.q State.r].
  conjs; reflexivity.
Qed.

(** A state that is not below the ground passes the ground-contact line and
    the storing of the motor speeds with its scalars unchanged. *)
Lemma after_rk4_scalars (i : State.t) (u : Input) :
  0 <= State.y i -> sameScalars (storeMotors (groundContact i) u) i.
Proof.
  intros Hy.
  destruct (storeMotors_scalars (groundContact i) u)
    as (Sx & Sy & Sz & Svx & Svy & Svz & Sphi & Sth & Spsi & Sp & Sq & Sr).
  assert (G : groundContact i = i).
  { unfold groundContact. destruct (Rlt_dec (State.y i) 0); [lra | reflexivity]. }
  rewrite G in *. unfold sameScalars. tauto.
Qed.

(** Attitude and rates pass the ground-contact line and the storing of the
    motor speeds unchanged, wherever the state is. *)
Lemma after_rk4_rotation (i : State.t) (u : Input) :
  sameRotation (storeMotors (groundContact i) u) i.
Proof.
  destruct (storeMotors_scalars (groundContact i) u)
    as (_ & _ & _ & _ & _ & _ & Sphi & Sth & Spsi & Sp & Sq & Sr).
  destruct (groundContact_others i)
    as (_ & _ & _ & _ & Gphi & Gth & Gpsi & Gp & Gq & Gr).
  unfold sameRotation. conjs; chain.
Qed.

(* --------------------------------------------------------------------- *)
(** *** A step of no duration *)

(** X1.  A step with [dt = 0] leaves the twelve scalars of a state that is
    not below the ground as they are, whatever the input and the wind. *)
Theorem step_zero_duration (s : State.t) (u : Input) (env : Env.t) :
  0 <= State.y s -> sameScalars (step s u env 0) s.
Proof.
  intros Hy.
  destruct (rk4_fields s u env 0)
    as ((Hx & Hy' & Hz) & (Hvx & Hvy & Hvz) & (Hphi & Hth & Hpsi) & (Hp & Hq & Hr)).
  cbv zeta in *.
  assert (Z : forall X : R, 0 / 6 * X = 0) by (intros X; unfold Rdiv; ring).
  rewrite Z, Rplus_0_r in Hx, Hy', Hz, Hvx, Hvy, Hvz, Hphi, Hth, Hpsi, Hp, Hq, Hr.
  unfold step.
  assert (Hi : 0 <= State.y (rk4 s u env 0)) by (rewrite Hy'; exact Hy).
  destruct (after_rk4_scalars (rk4 s u env 0) u Hi)
    as (A1 & A2 & A3 & A4 & A5 & A6 & A7 & A8 & A9 & A10 & A11 & A12).
  unfold sameScalars. conjs; chain.
Qed.

Lemma step_zero_duration_witness :
  0 <= State.y closing /\ sameScalars (step closing motorsOff calm 0) closing.
Proof.
  assert (H : 0 <= State.y closing) by (cbn; lra).
  split; [exact H | exact (step_zero_duration closing motorsOff calm H)].
Defined.


(* --------------------------------------------------------------------- *)
(** *** Hover *)

(** Level and at rest, carrying its weight, in still air: every derivative
    is zero, whatever the position and the yaw. *)
Lemma derivatives_hover (s : State.t) (env : Env.t) :
  levelAtRest s -> windless env -> derivatives s hoverInput env = zeroDeriv.
Proof.
  intros (Hvx & Hvy & Hvz & Hphi & Hth & Hp & Hq & Hr) (Wx & Wy & Wz).
  unfold derivatives, hoverInput, zeroDeriv. cbv zeta.
  rewrite Hvx, Hvy, Hvz, Hphi, Hth, Hp, Hq, Hr, Wx, Wy, Wz, cos_0, sin_0.
  unfold m, g, PARAMS.m, PARAMS.g, PARAMS.Cd, PARAMS.Ixx, PARAMS.Iyy, PARAMS.Izz.
  f_equal; lra.
Qed.

Lemma addScaled_zeroDeriv (s : State.t) (h : R) :
  sameScalars (addScaled s zeroDeriv h) s.
Proof. unfold sameScalars, addScaled, zeroDeriv. cbn. conjs; ring. Qed.

Lemma levelAtRest_sameScalars (a b : State.t) :
  sameScalars a b -> levelAtRest b -> levelAtRest a.
Proof.
  intros (_ & _ & _ & E4 & E5 & E6 & E7 & E8 & _ & E10 & E11 & E12)
         (Hvx & Hvy & Hvz & Hphi & Hth & Hp & Hq & Hr).
  unfold levelAtRest. conjs; chain.
Qed.

(** All four stage derivatives of a hovering state are zero. *)
Lemma stages_hover (s : State.t) (env : Env.t) (dt : R) :
  levelAtRest s -> windless env ->
  stage1 s hoverInput env dt = zeroDeriv /\
  stage2 s hoverInput env dt = zeroDeriv /\
  stage3 s hoverInput env dt = zeroDeriv /\
  stage4 s hoverInput env dt = zeroDeriv.
Proof.
  intros Hs Hw.
  assert (H1 : stage1 s hoverInput env dt = zeroDeriv)
    by (apply derivatives_hover; assumption).
  assert (H2 : stage2 s hoverInput env dt = zeroDeriv).
  { unfold stage2. rewrite H1. apply derivatives_hover; [|assumption].
    eapply levelAtRest_sameScalars; [apply addScaled_zeroDeriv | assumption]. }
  assert (H3 : stage3 s hoverInput env dt = zeroDeriv).
  { unfold stage3. rewrite H2. apply derivatives_hover; [|assumption].
    eapply levelAtRest_sameScalars; [apply addScaled_zeroDeriv | assumption]. }
  assert (H4 : stage4 s hoverInput env dt = zeroDeriv).
  { unfold stage4. rewrite H3. apply derivatives_hover; [|assumption].
    eapply levelAtRest_sameScalars; [apply addScaled_zeroDeriv | assumption]. }
  auto.
Qed.

(** One step at hover: the twelve scalars are kept. *)
Lemma step_hover (s : State.t) (env : Env.t) (dt : R) :
  levelAtRest s -> windless env -> 0 <= State.y s ->
  sameScalars (step s hoverInput env dt) s.
Proof.
  intros Hs Hw Hy.
  destruct (stages_hover s env dt Hs Hw) as (K1 & K2 & K3 & K4).
  destruct (rk4_fields s hoverInput env dt)
    as ((Hx & Hy' & Hz) & (Hvx & Hvy & Hvz) & (Hphi & Hth & Hpsi) & (Hp & Hq & Hr)).
  cbv zeta in *. rewrite K1, K2, K3, K4 in *. unfold zeroDeriv in *.
  cbn [Deriv.dx Deriv.dy Deriv.dz Deriv.dvx Deriv.dvy Deriv.dvz
       Deriv.dphi Deriv.dtheta Deriv.dpsi Deriv.dp Deriv.dq Deriv.dr] in *.
  assert (Z : dt / 6 * (0 + 2 * 0 + 2 * 0 + 0) = 0) by (unfold Rdiv; ring).
  rewrite Z, Rplus_0_r in Hx, Hy', Hz, Hvx, Hvy, Hvz, Hphi, Hth, Hpsi, Hp, Hq, Hr.
  unfold step.
  assert (Hi : 0 <= State.y (rk4 s hoverInput env dt)) by (rewrite Hy'; exact Hy).
  destruct (after_rk4_scalars (rk4 s hoverInput env dt) hoverInput Hi)
    as (A1 & A2 & A3 & A4 & A5 & A6 & A7 & A8 & A9 & A10 & A11 & A12).
  unfold sameScalars. conjs; chain.
Qed.

Lemma sameScalars_trans (a b c : State.t) :
  sameScalars a b -> sameScalars b c -> sameScalars a c.
Proof.
  intros (A1 & A2 & A3 & A4 & A5 & A6 & A7 & A8 & A9 & A10 & A11 & A12)
         (B1 & B2 & B3 & B4 & B5 & B6 & B7 & B8 & B9 & B10 & B11 & B12).
  unfold sameScalars. conjs; chain.
Qed.

(** X2.  Hover is a fixed point of the plant: a state that is level and at
    rest, not below the ground, fed the thrust [m·g] and no torque in still
    air, has the same twelve scalars after any number of steps of any
    length, whatever its position and yaw. *)
Theorem hover_fixed_point (s : State.t) (envs : list Env.t) (dt : R) :
  levelAtRest s -> Forall windless envs -> 0 <= State.y s ->
  sameScalars (stepMany hoverInput dt envs s) s.
Proof.
  intros Hs Hw. revert s Hs.
  induction Hw as [|env envs Hw _ IH]; intros s Hs Hy.
  - unfold sameScalars. cbn. conjs; reflexivity.
  - cbn [stepMany fold_left].
    pose proof (step_hover s env dt Hs Hw Hy) as H1.
    apply (sameScalars_trans _ (step s hoverInput env dt)); [|exact H1].
    apply IH.
    + exact (levelAtRest_sameScalars _ _ H1 Hs).
    + destruct H1 as (_ & E & _). rewrite E. exact Hy.
Qed.

Lemma hover_fixed_point_witness :
  levelAtRest hovering /\ Forall windless [calm; calm] /\ 0 <= State.y hovering /\
  sameScalars (stepMany hoverInput DT [calm; calm] hovering) hovering.
Proof.
  assert (H1 : levelAtRest hovering)
    by (unfold levelAtRest, hovering; cbn; conjs; reflexivity).
  assert (H2 : windless calm)
    by (unfold windless, calm; cbn; conjs; reflexivity).
  assert (H2' : Forall windless [calm; calm])
    by (apply Forall_cons; [exact H2 | apply Forall_cons; [exact H2 | apply Forall_nil]]).
  assert (H3 : 0 <= State.y hovering) by (unfold hovering; cbn; lra).
  split; [exact H1|]. split; [exact H2'|]. split; [exact H3|].
  exact (hover_fixed_point hovering [calm; calm] DT H1 H2' H3).
Defined.

(* --------------------------------------------------------------------- *)
(** *** The rotational part at rest *)

(** Without torque and without body rates, the six rotational derivatives
    are zero, whatever the attitude, the thrust and the wind. *)
Lemma derivatives_not_turning (s : State.t) (T : R) (env : Env.t) :
  notTurning s ->
  let k := derivatives s (T, 0, 0, 0) env in
  Deriv.dphi k = 0 /\ Deriv.dtheta k = 0 /\ Deriv.dpsi k = 0 /\
  Deriv.dp k = 0 /\ Deriv.dq k = 0 /\ Deriv.dr k = 0.
Proof.
  intros (Hp & Hq & Hr). unfold derivatives. cbv zeta.
  cbn [Deriv.dphi Deriv.dtheta Deriv.dpsi Deriv.dp Deriv.dq Deriv.dr].
  rewrite Hp, Hq, Hr. conjs; unfold Rdiv; ring.
Qed.

Lemma addScaled_rotation (s : State.t) (k : Deriv.t) (h : R) :
  Deriv.dphi k = 0 /\ Deriv.dtheta k = 0 /\ Deriv.dpsi k = 0 /\
  Deriv.dp k = 0 /\ Deriv.dq k = 0 /\ Deriv.dr k = 0 ->
  sameRotation (addScaled s k h) s.
Proof.
  intros (E1 & E2 & E3 & E4 & E5 & E6). unfold sameRotation, addScaled. cbn.
  rewrite E1, E2, E3, E4, E5, E6. conjs; ring.
Qed.

Lemma notTurning_sameRotation (a b : State.t) :
  sameRotation a b -> notTurning b -> notTurning a.
Proof.
  intros (_ & _ & _ & E4 & E5 & E6) (Hp & Hq & Hr).
  unfold notTurning. conjs; chain.
Qed.

(** X3.  A drone that is not turning and receives no torque keeps its
    attitude and its zero body rates over a step, whatever its roll, pitch
    and yaw (pitch away from ±90°, where the source divides by zero), its
    thrust, the wind and the step length. *)
Theorem rotation_stays_at_rest (s : State.t) (T : R) (env : Env.t) (dt : R) :
  notTurning s -> cos (State.theta s) <> 0 ->
  sameRotation (step s (T, 0, 0, 0) env dt) s.
Proof.
  intros Hs _.
  pose proof (derivatives_not_turning s T env Hs) as K1. cbv zeta in K1.
  change (derivatives s (T, 0, 0, 0) env)
    with (stage1 s (T, 0, 0, 0) env dt) in K1.
  assert (S2 : notTurning (addScaled s (stage1 s (T, 0, 0, 0) env dt) (dt / 2)))
    by (eapply notTurning_sameRotation;
        [apply addScaled_rotation; exact K1 | exact Hs]).
  pose proof (derivatives_not_turning _ T env S2) as K2. cbv zeta in K2.
  change (derivatives (addScaled s (stage1 s (T, 0, 0, 0) env dt) (dt / 2))
                      (T, 0, 0, 0) env)
    with (stage2 s (T, 0, 0, 0) env dt) in K2.
  assert (S3 : notTurning (addScaled s (stage2 s (T, 0, 0, 0) env dt) (dt / 2)))
    by (eapply notTurning_sameRotation;
        [apply addScaled_rotation; exact K2 | exact Hs]).
  pose proof (derivatives_not_turning _ T env S3) as K3. cbv zeta in K3.
  change (derivatives (addScaled s (stage2 s (T, 0, 0, 0) env dt) (dt / 2))
                      (T, 0, 0, 0) env)
    with (stage3 s (T, 0, 0, 0) env dt) in K3.
  assert (S4 : notTurning (addScaled s (stage3 s (T, 0, 0, 0) env dt) dt))
    by (eapply notTurning_sameRotation;
        [apply addScaled_rotation; exact K3 | exact Hs]).
  pose proof (derivatives_not_turning _ T env S4) as K4. cbv zeta in K4.
  change (derivatives (addScaled s (stage3 s (T, 0, 0, 0) env dt) dt)
                      (T, 0, 0, 0) env)
    with (stage4 s (T, 0, 0, 0) env dt) in K4.
  destruct (rk4_fields s (T, 0, 0, 0) env dt)
    as (_ & _ & (Hphi & Hth & Hpsi) & (Hp & Hq & Hr)).
  cbv zeta in Hphi, Hth, Hpsi, Hp, Hq, Hr.
  destruct K1 as (A1 & A2 & A3 & A4 & A5 & A6).
  destruct K2 as (B1 & B2 & B3 & B4 & B5 & B6).
  destruct K3 as (C1 & C2 & C3 & C4 & C5 & C6).
  destruct K4 as (D1 & D2 & D3 & D4 & D5 & D6).
  rewrite A1, B1, C1, D1 in Hphi. rewrite A2, B2, C2, D2 in Hth.
  rewrite A3, B3, C3, D3 in Hpsi. rewrite A4, B4, C4, D4 in Hp.
  rewrite A5, B5, C5, D5 in Hq. rewrite A6, B6, C6, D6 in Hr.
  assert (Z : dt / 6 * (0 + 2 * 0 + 2 * 0 + 0) = 0) by (unfold Rdiv; ring).
  rewrite Z, Rplus_0_r in Hphi, Hth, Hpsi, Hp, Hq, Hr.
  unfold step.
  destruct (after_rk4_rotation (rk4 s (T, 0, 0, 0) env dt) (T, 0, 0, 0))
    as (R1 & R2 & R3 & R4 & R5 & R6).
  unfold sameRotation. conjs; chain.
Qed.

Lemma rotation_stays_at_rest_witness :
  notTurning closing /\ cos (State.theta closing) <> 0 /\
  sameRotation (step closing (1, 0, 0, 0) (App.windEnv 5 2) DT) closing.
Proof.
  assert (H1 : notTurning closing)
    by (unfold notTurning, closing; cbn; conjs; reflexivity).
  assert (H2 : cos (State.theta closing) <> 0) by (unfold closing; cbn; rewrite cos_0; lra).
  conjs; try assumption.
  all: apply (rotation_stays_at_rest closing 1 (App.windEnv 5 2) DT H1 H2).
Defined.


(* --------------------------------------------------------------------- *)
(** *** Motor allocation without torque *)

(** A quotient by a positive number lies where its numerator allows. *)
Lemma quot_bounds (a c lo hi : R) :
  0 < c -> lo * c <= a <= hi * c -> lo <= a / c <= hi.
Proof.
  intros Hc [H1 H2].
  split; apply Rmult_le_reg_r with c; try exact Hc;
    replace (a / c * c) with a by (field; lra); assumption.
Qed.

Lemma motorSquares_no_torque (T : R) :
  motorSquares T 0 0 0
  = (T / (4 * PARAMS.kT), T / (4 * PARAMS.kT),
     T / (4 * PARAMS.kT), T / (4 * PARAMS.kT)).
Proof.
  unfold motorSquares. cbv zeta.
  apply f_equal2; [apply f_equal2; [apply f_equal2|]|]; unfold Rdiv; ring.
Qed.

(** X4.  A pure thrust command spins the four motors at one common speed:
    zero for a thrust that is not positive, [wMax] from the thrust
    [4·kT·wMax²] on, and [√(T/(4·kT))] in between. *)
Theorem pure_thrust_allocation (T : R) :
  let w := sqrt (clamp (T / (4 * PARAMS.kT)) 0 (PARAMS.wMax * PARAMS.wMax)) in
  allocateMotors T 0 0 0 = [w; w; w; w] /\
  (T <= 0 -> w = 0) /\
  (4 * PARAMS.kT * (PARAMS.wMax * PARAMS.wMax) <= T -> w = PARAMS.wMax) /\
  (0 <= T <= 4 * PARAMS.kT * (PARAMS.wMax * PARAMS.wMax) ->
   w = sqrt (T / (4 * PARAMS.kT))).
Proof.
  intros w. subst w.
  assert (HkT : 0 < 4 * PARAMS.kT) by (unfold PARAMS.kT; lra).
  split; [|split; [|split]].
  - unfold allocateMotors. rewrite motorSquares_no_torque. reflexivity.
  - intros HT.
    assert (Hq : T / (4 * PARAMS.kT) - 1 <= T / (4 * PARAMS.kT) <= 0).
    { split; [lra|]. apply (quot_bounds T _ (T / (4 * PARAMS.kT) - 1) 0 HkT).
      split; [|lra]. replace ((T / (4 * PARAMS.kT) - 1) * (4 * PARAMS.kT))
        with (T - 4 * PARAMS.kT) by (field; lra). lra. }
    unfold clamp. rewrite Rmin_right by (pose proof wMaxSq_nonneg; lra).
    rewrite Rmax_left by apply Hq. apply sqrt_0.
  - intros HT.
    assert (Hq : PARAMS.wMax * PARAMS.wMax <= T / (4 * PARAMS.kT)
                 <= T / (4 * PARAMS.kT) + 1).
    { split; [|lra].
      apply (quot_bounds T _ (PARAMS.wMax * PARAMS.wMax)
                         (T / (4 * PARAMS.kT) + 1) HkT).
      split; [lra|]. replace ((T / (4 * PARAMS.kT) + 1) * (4 * PARAMS.kT))
        with (T + 4 * PARAMS.kT) by (field; lra). lra. }
    unfold clamp. rewrite Rmin_left by apply Hq.
    rewrite Rmax_right by apply wMaxSq_nonneg.
    apply sqrt_square. unfold PARAMS.wMax. lra.
  - intros [H0 H1].
    rewrite clamp_id; [reflexivity|].
    apply quot_bounds; [exact HkT | lra].
Qed.

Lemma pure_thrust_allocation_witness :
  (-1 <= 0 /\ allocateMotors (-1) 0 0 0 = [0; 0; 0; 0]) /\
  (4 * PARAMS.kT * (PARAMS.wMax * PARAMS.wMax) <= 100 /\
   allocateMotors 100 0 0 0
   = [PARAMS.wMax; PARAMS.wMax; PARAMS.wMax; PARAMS.wMax]) /\
  (0 <= m * g <= 4 * PARAMS.kT * (PARAMS.wMax * PARAMS.wMax) /\
   allocateMotors (m * g) 0 0 0
   = [sqrt (m * g / (4 * PARAMS.kT)); sqrt (m * g / (4 * PARAMS.kT));
      sqrt (m * g / (4 * PARAMS.kT)); sqrt (m * g / (4 * PARAMS.kT))]).
Proof.
  assert (H1 : -1 <= 0) by lra.
  assert (H2 : 4 * PARAMS.kT * (PARAMS.wMax * PARAMS.wMax) <= 100)
    by (unfold PARAMS.kT, PARAMS.wMax; lra).
  assert (H3 : 0 <= m * g <= 4 * PARAMS.kT * (PARAMS.wMax * PARAMS.wMax))
    by (unfold m, g, PARAMS.m, PARAMS.g, PARAMS.kT, PARAMS.wMax; lra).
  destruct (pure_thrust_allocation (-1)) as (A & A0 & _).
  destruct (pure_thrust_allocation 100) as (B & _ & B1 & _).
  destruct (pure_thrust_allocation (m * g)) as (C & _ & _ & C2).
  cbv zeta in *.
  rewrite (A0 H1) in A. rewrite (B1 H2) in B. rewrite (C2 H3) in C.
  conjs; try assumption; apply H3.
Defined.




(* --------------------------------------------------------------------- *)
(** *** [clamp] *)

(** X6.  [clamp(v, lo, hi)] with [lo <= hi] is [lo] below the interval, [v]
    inside and [hi] above; it is monotone in [v] and clamping twice is
    clamping once.  With the bounds the wrong way round ([hi < lo]) it is
    [lo] for every [v]. *)
Theorem clamp_characterisation (v lo hi : R) :
  (lo <= hi ->
   (v <= lo -> clamp v lo hi = lo) /\
   (lo <= v <= hi -> clamp v lo hi = v) /\
   (hi <= v -> clamp v lo hi = hi)) /\
  (hi < lo -> clamp v lo hi = lo) /\
  (forall v', v <= v' -> clamp v lo hi <= clamp v' lo hi) /\
  clamp (clamp v lo hi) lo hi = clamp v lo hi.
Proof.
  unfold clamp, Rmax, Rmin.
  split; [|split; [|split]].
  - intros Hle. conjs; intros;
      repeat (destruct (Rle_dec _ _)); lra.
  - intros Hlt. repeat (destruct (Rle_dec _ _)); lra.
  - intros v' Hv. repeat (destruct (Rle_dec _ _)); lra.
  - repeat (destruct (Rle_dec _ _)); lra.
Qed.

Lemma clamp_characterisation_witness :
  (-2 <= 2 /\ clamp (-5) (-2) 2 = -2 /\ clamp 1 (-2) 2 = 1 /\ clamp 7 (-2) 2 = 2) /\
  (-2 < 2 /\ clamp 7 2 (-2) = 2) /\
  (1 <= 7 /\ clamp 1 (-2) 2 <= clamp 7 (-2) 2).
Proof.
  destruct (clamp_characterisation (-5) (-2) 2) as (A & _).
  destruct (clamp_characterisation 1 (-2) 2) as (B & _ & M & _).
  destruct (clamp_characterisation 7 (-2) 2) as (C & _).
  destruct (clamp_characterisation 7 2 (-2)) as (_ & D & _).
  assert (H : -2 <= 2) by lra.
  destruct (A H) as (A1 & _). destruct (B H) as (_ & B2 & _).
  destruct (C H) as (_ & _ & C3).
  split; [|split].
  - split; [exact H|]. split; [apply A1; lra|]. split; [apply B2; lra | apply C3; lra].
  - split; [lra | apply D; lra].
  - split; [lra | apply M; lra].
Defined.

End PlantFacts.

(* ===================================================================== *)
(** * Further properties of the controllers *)
(* ===================================================================== *)

Module ControlFacts.

Import Physics Controllers Vocabulary Scenarios PhysicsFacts ControllersFacts Steps.


(* --------------------------------------------------------------------- *)
(** *** The switching functions *)

(** X7.  [sat] never leaves [[-1, 1]] and is odd in [s], whatever the
    boundary-layer thickness, zero and negative ones included. *)
Theorem sat_bounded_odd (s phi : R) :
  -1 <= sat s phi <= 1 /\ sat (- s) phi = - sat s phi.
Proof.
  unfold sat. destruct (Rle_dec phi 0) as [Hphi | Hphi].
  - unfold sign. split; [split|]; cases_lra.
  - cbv zeta.
    replace (- s / phi) with (- (s / phi)) by (unfold Rdiv; ring).
    rewrite Rabs_Ropp.
    destruct (Rle_dec (Rabs (s / phi)) 1) as [Hin | Hout].
    + split; [|reflexivity]. revert Hin. unfold Rabs. cases_lra.
    + unfold sign. split; [split|]; cases_lra.
Qed.


(** X8.  With a positive boundary layer [phi], [sat] is the straight line
    [s/phi] for [|s| <= phi] and the constant [±1] outside, the two meeting
    at [s = ±phi]; inside the layer the outer SMC law of an axis is
    therefore affine in the surface value, [λ·ė + (η/phi)·s].  Without one
    ([phi <= 0]) [sat] is [sign]. *)
Theorem sat_boundary_layer (s phi : R) :
  (0 < phi ->
   (Rabs s <= phi -> sat s phi = s / phi) /\
   (phi <= s -> sat s phi = 1) /\
   (s <= - phi -> sat s phi = -1) /\
   (forall lambda eta e ev : R,
       Rabs (surface lambda e ev) <= phi ->
       smcAxis lambda eta phi e ev
       = lambda * ev + eta / phi * surface lambda e ev)) /\
  (phi <= 0 -> sat s phi = sign s).
Proof.
  assert (In : forall x, 0 < phi -> Rabs x <= phi -> sat x phi = x / phi).
  { intros x Hphi Hx. unfold sat.
    destruct (Rle_dec phi 0) as [H|_]; [lra|]. cbv zeta.
    assert (Hq : -1 <= x / phi <= 1).
    { apply PlantFacts.quot_bounds; [exact Hphi|].
      revert Hx. unfold Rabs. cases_lra. }
    destruct (Rle_dec (Rabs (x / phi)) 1) as [_|H]; [reflexivity|].
    exfalso. apply H. unfold Rabs. cases_lra. }
  split.
  - intros Hphi. conjs.
    + intros Hs. apply In; assumption.
    + intros Hs. unfold sat.
      destruct (Rle_dec phi 0) as [H|_]; [lra|]. cbv zeta.
      assert (Hq : 1 <= s / phi <= s / phi)
        by (apply PlantFacts.quot_bounds; [exact Hphi|];
            split; [lra|]; replace (s / phi * phi) with s by (field; lra); lra).
      destruct (Rle_dec (Rabs (s / phi)) 1) as [Hin|_].
      * revert Hin. unfold Rabs. cases_lra.
      * unfold sign. cases_lra.
    + intros Hs. unfold sat.
      destruct (Rle_dec phi 0) as [H|_]; [lra|]. cbv zeta.
      assert (Hq : s / phi <= s / phi <= -1)
        by (apply PlantFacts.quot_bounds; [exact Hphi|];
            split; [|lra]; replace (s / phi * phi) with s by (field; lra); lra).
      destruct (Rle_dec (Rabs (s / phi)) 1) as [Hin|_].
      * revert Hin. unfold Rabs. cases_lra.
      * unfold sign. cases_lra.
    + intros lambda eta e ev Hs. unfold smcAxis.
      rewrite (In _ Hphi Hs). field. lra.
  - intros Hphi. unfold sat.
    destruct (Rle_dec phi 0) as [_|H]; [reflexivity | contradiction].
Qed.

Lemma sat_boundary_layer_witness :
  0 < 0.5 /\
  (Rabs 0.2 <= 0.5 /\ sat 0.2 0.5 = 0.2 / 0.5) /\
  (0.5 <= 3 /\ sat 3 0.5 = 1) /\
  (-3 <= - 0.5 /\ sat (-3) 0.5 = -1) /\
  (0 <= 0 /\ sat 3 0 = sign 3).
Proof.
  assert (H : 0 < 0.5) by lra.
  assert (A : Rabs 0.2 <= 0.5) by (unfold Rabs; destruct (Rcase_abs 0.2); lra).
  destruct (sat_boundary_layer 0.2 0.5) as (P1 & _).
  destruct (sat_boundary_layer 3 0.5) as (P2 & _).
  destruct (sat_boundary_layer (-3) 0.5) as (P3 & _).
  destruct (sat_boundary_layer 3 0) as (_ & P4).
  destruct (P1 H) as (Q1 & _). destruct (P2 H) as (_ & Q2 & _).
  destruct (P3 H) as (_ & _ & Q3 & _).
  split; [exact H|]. split; [split; [exact A | exact (Q1 A)]|].
  split; [split; [lra | apply Q2; lra]|].
  split; [split; [lra | apply Q3; lra]|].
  split; [lra | apply P4; lra].
Defined.

(* --------------------------------------------------------------------- *)
(** *** The PID integrators *)

Lemma computePID_integrators state target G dt intState :
  let i' := snd (computePID state target G dt intState) in
  let lim := Gains.iMax G in
  IntState.iEx i'
  = clamp (IntState.iEx intState + (Setpoint.x target - State.x state) * dt)
          (- lim) lim /\
  IntState.iEy i'
  = clamp (IntState.iEy intState + (Setpoint.y target - State.y state) * dt)
          (- lim) lim /\
  IntState.iEz i'
  = clamp (IntState.iEz intState + (Setpoint.z target - State.z state) * dt)
          (- lim) lim.
Proof. cbv zeta. conjs; reflexivity. Qed.

(** X9.  Anti-windup: with [iMax >= 0], the three integrators lie in
    [[-iMax, iMax]] after every PID call, whatever they, the error and [dt]
    were before.  With a negative [iMax] every call sets all three to
    [-iMax]. *)
Theorem pid_anti_windup
    (state : State.t) (target : Setpoint.t) (G : Gains.t) (dt : R)
    (intState : IntState.t) :
  let i' := snd (computePID state target G dt intState) in
  (0 <= Gains.iMax G ->
   Rabs (IntState.iEx i') <= Gains.iMax G /\
   Rabs (IntState.iEy i') <= Gains.iMax G /\
   Rabs (IntState.iEz i') <= Gains.iMax G) /\
  (Gains.iMax G < 0 ->
   IntState.iEx i' = - Gains.iMax G /\
   IntState.iEy i' = - Gains.iMax G /\
   IntState.iEz i' = - Gains.iMax G).
Proof.
  intros i'. subst i'.
  destruct (computePID_integrators state target G dt intState) as (Ex & Ey & Ez).
  cbv zeta in *. rewrite Ex, Ey, Ez. split.
  - intros Hlim. conjs; apply Rabs_le; apply clamp_bounds; lra.
  - intros Hlim. conjs; unfold clamp, Rmax, Rmin; cases_lra.
Qed.

Lemma pid_anti_windup_witness :
  0 <= Gains.iMax defaultGains /\
  Rabs (IntState.iEx (snd (computePID createState beside_above defaultGains 1000
                                      resetInternal)))
  <= Gains.iMax defaultGains.
Proof.
  assert (H : 0 <= Gains.iMax defaultGains) by (cbn; lra).
  split; [exact H|].
  apply (pid_anti_windup createState beside_above defaultGains 1000 resetInternal).
  exact H.
Defined.

Lemma abs_le_bounds (x L : R) : Rabs x <= L -> - L <= x <= L.
Proof. unfold Rabs. cases_lra. Qed.

(** Adding the same amount and clamping, [n] times over, is adding [n]
    times the amount and clamping once. *)
Lemma clamp_accumulate (L d v0 : R) :
  0 <= L -> - L <= v0 <= L ->
  forall n : nat,
    Nat.iter n (fun v => clamp (v + d) (- L) L) v0
    = clamp (v0 + INR n * d) (- L) L.
Proof.
  intros HL Hv0. induction n as [|n IH].
  - simpl. rewrite Rmult_0_l, Rplus_0_r. symmetry. apply clamp_id. exact Hv0.
  - rewrite S_INR, Nat.iter_succ, IH.
    pose proof (pos_INR n) as Hn.
    destruct (Rle_dec 0 d) as [Hd | Hd].
    + assert (Hx : 0 <= INR n * d) by (apply Rmult_le_pos; assumption).
      set (x := INR n * d) in *.
      replace (v0 + (INR n + 1) * d) with (v0 + x + d) by (subst x; ring).
      unfold clamp, Rmax, Rmin. cases_lra.
    + assert (Hx : INR n * d <= 0).
      { replace (INR n * d) with (- (INR n * - d)) by ring.
        assert (0 <= INR n * - d) by (apply Rmult_le_pos; lra). lra. }
      set (x := INR n * d) in *.
      replace (v0 + (INR n + 1) * d) with (v0 + x + d) by (subst x; ring).
      unfold clamp, Rmax, Rmin. cases_lra.
Qed.

Lemma pidTicks_integrators state target G dt intState (n : nat) :
  let lim := Gains.iMax G in
  let i := pidTicks n state target G dt intState in
  IntState.iEx i
  = Nat.iter n (fun v => clamp (v + (Setpoint.x target - State.x state) * dt)
                               (- lim) lim) (IntState.iEx intState) /\
  IntState.iEy i
  = Nat.iter n (fun v => clamp (v + (Setpoint.y target - State.y state) * dt)
                               (- lim) lim) (IntState.iEy intState) /\
  IntState.iEz i
  = Nat.iter n (fun v => clamp (v + (Setpoint.z target - State.z state) * dt)
                               (- lim) lim) (IntState.iEz intState).
Proof.
  induction n as [|n IH]; [cbv zeta; conjs; reflexivity|].
  cbv zeta in *. destruct IH as (Ix & Iy & Iz).
  cbn [pidTicks]. rewrite !Nat.iter_succ.
  destruct (computePID_integrators state target G dt
              (pidTicks n state target G dt intState)) as (Ex & Ey & Ez).
  cbv zeta in *. rewrite Ex, Ey, Ez, Ix, Iy, Iz. conjs; reflexivity.
Qed.

(** X10.  Held in place with a constant position error [e], a PID whose
    integrators start within their limits has, after [n] calls, on each
    axis the integrator [clamp(i0 + n·e·dt, -iMax, iMax)]: it sits exactly
    at [iMax] from the call on at which [i0 + n·e·dt] reaches [iMax] (at
    [-iMax] likewise), and stays there. *)
Theorem pid_integrator_after_ticks
    (state : State.t) (target : Setpoint.t) (G : Gains.t) (dt : R)
    (intState : IntState.t) (n : nat) :
  0 <= Gains.iMax G ->
  Rabs (IntState.iEx intState) <= Gains.iMax G ->
  Rabs (IntState.iEy intState) <= Gains.iMax G ->
  Rabs (IntState.iEz intState) <= Gains.iMax G ->
  let L := Gains.iMax G in
  let i := pidTicks n state target G dt intState in
  (IntState.iEx i
   = heldIntegrator (IntState.iEx intState) (Setpoint.x target - State.x state) dt n L /\
   IntState.iEy i
   = heldIntegrator (IntState.iEy intState) (Setpoint.y target - State.y state) dt n L /\
   IntState.iEz i
   = heldIntegrator (IntState.iEz intState) (Setpoint.z target - State.z state) dt n L) /\
  (forall i0 e : R,
      (L <= i0 + INR n * (e * dt) -> heldIntegrator i0 e dt n L = L) /\
      (i0 + INR n * (e * dt) <= - L -> heldIntegrator i0 e dt n L = - L)).
Proof.
  intros HL Hx Hy Hz L i. subst L i.
  apply abs_le_bounds in Hx, Hy, Hz.
  destruct (pidTicks_integrators state target G dt intState n) as (Ex & Ey & Ez).
  cbv zeta in Ex, Ey, Ez.
  rewrite Ex, Ey, Ez, !clamp_accumulate by assumption.
  split; [conjs; reflexivity|].
  intros i0 e. unfold heldIntegrator.
  split; intros H; unfold clamp, Rmax, Rmin; cases_lra.
Qed.

(** From rest one metre beside the setpoint, with the default limit
    [iMax = 2], the x integrator is full after 240 ticks of 1/120 s. *)
Lemma pid_integrator_after_ticks_witness :
  0 <= Gains.iMax defaultGains /\
  Rabs (IntState.iEx resetInternal) <= Gains.iMax defaultGains /\
  Gains.iMax defaultGains
  <= IntState.iEx resetInternal
     + INR 240 * ((Setpoint.x beside_above - State.x createState) * DT) /\
  IntState.iEx (pidTicks 240 createState beside_above defaultGains DT resetInternal)
  = Gains.iMax defaultGains.
Proof.
  assert (H1 : 0 <= Gains.iMax defaultGains) by (cbn; lra).
  assert (H2 : Rabs (IntState.iEx resetInternal) <= Gains.iMax defaultGains)
    by (cbn; rewrite Rabs_R0; lra).
  assert (H3 : Gains.iMax defaultGains
               <= IntState.iEx resetInternal
                  + INR 240 * ((Setpoint.x beside_above - State.x createState) * DT)).
  { replace (INR 240) with 240 by (rewrite INR_IZR_INZ; reflexivity).
    unfold DT. cbn. lra. }
  split; [exact H1|]. split; [exact H2|]. split; [exact H3|].
  destruct (pid_integrator_after_ticks createState beside_above defaultGains DT
              resetInternal 240 H1 H2 H2 H2) as ((Ex & _) & Sat).
  cbv zeta in Ex, Sat. rewrite Ex. apply Sat. exact H3.
Defined.


(* --------------------------------------------------------------------- *)
(** *** What the sliding-mode controllers remember *)

(** X11.  The first-order sliding-mode controller keeps no memory: the vector
    it returns depends neither on the controller state handed in nor on
    [dt], and it leaves the PID integrators, the super-twisting
    accumulators and the published prediction as they are. *)
Theorem smc_keeps_no_memory
    (state : State.t) (target : Setpoint.t) (G : Gains.t) (dt : R)
    (intState : IntState.t) :
  (forall (dt' : R) (other : IntState.t),
      fst (computeSMC state target G dt' other)
      = fst (computeSMC state target G dt intState)) /\
  sameMemory (snd (computeSMC state target G dt intState)) intState.
Proof.
  split; [intros dt' other; reflexivity|].
  unfold sameMemory, computeSMC.
  destruct (smcOuter state target G) as [loc s]. cbn. conjs; reflexivity.
Qed.

Lemma stsOuter_axes state target G dt intState :
  let ex := Setpoint.x target - State.x state in
  let evx := JS.or0 (Setpoint.vx target) - State.vx state in
  let ey := Setpoint.y target - State.y state in
  let evy := JS.or0 (Setpoint.vy target) - State.vy state in
  let ez := Setpoint.z target - State.z state in
  let evz := JS.or0 (Setpoint.vz target) - State.vz state in
  let r := stsOuter state target G dt intState in
  let loc := fst (fst r) in
  let s := snd (fst r) in
  let v := snd r in
  (Axes.x s = surface (Gains.lambda_xy G) ex evx /\
   Axes.y s = surface (Gains.lambda_z G) ey evy /\
   Axes.z s = surface (Gains.lambda_xy G) ez evz) /\
  (Axes.x v = IntState.v_x intState + - Gains.alpha2_xy G * sign (Axes.x s) * dt /\
   Axes.y v = IntState.v_y intState + - Gains.alpha2_z G * sign (Axes.y s) * dt /\
   Axes.z v = IntState.v_z intState + - Gains.alpha2_xy G * sign (Axes.z s) * dt) /\
  (Locals.ax_des loc
   = Gains.alpha1_xy G * sqrt (Rabs (Axes.x s)) * sign (Axes.x s) + Axes.x v /\
   Locals.ay_des loc
   = Gains.alpha1_z G * sqrt (Rabs (Axes.y s)) * sign (Axes.y s) + Axes.y v /\
   Locals.az_des loc
   = Gains.alpha1_xy G * sqrt (Rabs (Axes.z s)) * sign (Axes.z s) + Axes.z v).
Proof. cbv zeta. conjs; reflexivity. Qed.

(** One accumulator update: it moves by at most [|α₂·dt|], and not at all
    on the surface, where the control is the accumulator itself. *)
Lemma accumulator_step (alpha1 alpha2 s v dt : R) :
  let v' := v + - alpha2 * sign s * dt in
  Rabs (v' - v) <= Rabs (alpha2 * dt) /\
  (s = 0 -> v' = v /\ alpha1 * sqrt (Rabs s) * sign s + v' = v).
Proof.
  cbv zeta. split.
  - replace (v + - alpha2 * sign s * dt - v) with (- (alpha2 * dt) * sign s) by ring.
    rewrite Rabs_mult, Rabs_Ropp.
    assert (Hs : Rabs (sign s) <= 1) by (unfold sign, Rabs; cases_lra).
    pose proof (Rabs_pos (alpha2 * dt)) as Hp.
    replace (Rabs (alpha2 * dt)) with (Rabs (alpha2 * dt) * 1) at 2 by ring.
    apply Rmult_le_compat_l; assumption.
  - intros ->. rewrite sign_0. split; ring.
Qed.

(** X12.  In the super-twisting controller each translational accumulator
    moves by at most [|α₂·dt|] per call; on the surface ([s = 0]) it does
    not move and the desired acceleration of that axis is the accumulator
    itself. *)
Theorem sts_accumulator_rate
    (state : State.t) (target : Setpoint.t) (G : Gains.t) (dt : R)
    (intState : IntState.t) :
  let r := stsOuter state target G dt intState in
  let loc := fst (fst r) in
  let s := snd (fst r) in
  let v := snd r in
  (Rabs (Axes.x v - IntState.v_x intState) <= Rabs (Gains.alpha2_xy G * dt) /\
   Rabs (Axes.y v - IntState.v_y intState) <= Rabs (Gains.alpha2_z G * dt) /\
   Rabs (Axes.z v - IntState.v_z intState) <= Rabs (Gains.alpha2_xy G * dt)) /\
  (Axes.x s = 0 ->
   Axes.x v = IntState.v_x intState /\ Locals.ax_des loc = IntState.v_x intState) /\
  (Axes.y s = 0 ->
   Axes.y v = IntState.v_y intState /\ Locals.ay_des loc = IntState.v_y intState) /\
  (Axes.z s = 0 ->
   Axes.z v = IntState.v_z intState /\ Locals.az_des loc = IntState.v_z intState).
Proof.
  intros r loc s v.
  destruct (stsOuter_axes state target G dt intState)
    as (_ & (Vx & Vy & Vz) & (Ax & Ay & Az)).
  cbv zeta in *. fold r in Vx, Vy, Vz, Ax, Ay, Az.
  fold s in Vx, Vy, Vz, Ax, Ay, Az. fold v in Vx, Vy, Vz, Ax, Ay, Az.
  fold loc in Ax, Ay, Az.
  rewrite Ax, Ay, Az, Vx, Vy, Vz.
  pose proof (accumulator_step (Gains.alpha1_xy G) (Gains.alpha2_xy G)
                (Axes.x s) (IntState.v_x intState) dt) as [Bx Sx].
  pose proof (accumulator_step (Gains.alpha1_z G) (Gains.alpha2_z G)
                (Axes.y s) (IntState.v_y intState) dt) as [By Sy].
  pose proof (accumulator_step (Gains.alpha1_xy G) (Gains.alpha2_xy G)
                (Axes.z s) (IntState.v_z intState) dt) as [Bz Sz].
  cbv zeta in *.
  split; [conjs; assumption|]. conjs; assumption.
Qed.

Lemma sts_accumulator_rate_witness :
  Axes.y (snd (fst (stsOuter level_hover here defaultGains DT resetInternal))) = 0 /\
  Axes.y (snd (stsOuter level_hover here defaultGains DT resetInternal))
  = IntState.v_y resetInternal /\
  Locals.ay_des (fst (fst (stsOuter level_hover here defaultGains DT resetInternal)))
  = IntState.v_y resetInternal.
Proof.
  assert (H : Axes.y (snd (fst (stsOuter level_hover here defaultGains DT
                                         resetInternal))) = 0).
  { destruct (stsOuter_axes level_hover here defaultGains DT resetInternal)
      as ((_ & Sy & _) & _).
    cbv zeta in Sy. rewrite Sy. unfold surface. cbn. lra. }
  split; [exact H|].
  apply (sts_accumulator_rate level_hover here defaultGains DT resetInternal).
  exact H.
Defined.

(* --------------------------------------------------------------------- *)
(** *** The dispatcher *)

Lemma compute_PID state target gains dt trajectoryFn time intState :
  compute "PID" state target gains dt trajectoryFn time intState
  = (Some (fst (computePID state target gains dt intState)),
     snd (computePID state target gains dt intState)).
Proof.
  unfold compute. cbn [String.eqb Ascii.eqb Bool.eqb].
  destruct (computePID state target gains dt intState). reflexivity.
Qed.

Lemma compute_SMC state target gains dt trajectoryFn time intState :
  compute "SMC" state target gains dt trajectoryFn time intState
  = (Some (fst (computeSMC state target gains dt intState)),
     snd (computeSMC state target gains dt intState)).
Proof.
  unfold compute. cbn [String.eqb Ascii.eqb Bool.eqb].
  destruct (computeSMC state target gains dt intState). reflexivity.
Qed.

Lemma compute_STS state target gains dt trajectoryFn time intState :
  compute "STS" state target gains dt trajectoryFn time intState
  = (Some (fst (computeSTS state target gains dt intState)),
     snd (computeSTS state target gains dt intState)).
Proof.
  unfold compute. cbn [String.eqb Ascii.eqb Bool.eqb].
  destruct (computeSTS state target gains dt intState). reflexivity.
Qed.

Lemma compute_MPC state target gains dt trajectoryFn time intState :
  compute "MPC" state target gains dt trajectoryFn time intState
  = (Some (fst (computeMPC state target gains dt trajectoryFn time intState)),
     snd (computeMPC state target gains dt trajectoryFn time intState)).
Proof.
  unfold compute. cbn [String.eqb Ascii.eqb Bool.eqb].
  destruct (computeMPC state target gains dt trajectoryFn time intState).
  reflexivity.
Qed.

Lemma compute_unlabelled algo state target gains dt trajectoryFn time intState :
  ~ knownAlgo algo ->
  compute algo state target gains dt trajectoryFn time intState = (None, intState).
Proof.
  intros H. unfold compute.
  destruct (String.eqb_spec algo "PID") as [E|_];
    [exfalso; apply H; unfold knownAlgo; tauto|].
  destruct (String.eqb_spec algo "SMC") as [E|_];
    [exfalso; apply H; unfold knownAlgo; tauto|].
  destruct (String.eqb_spec algo "STS") as [E|_];
    [exfalso; apply H; unfold knownAlgo; tauto|].
  destruct (String.eqb_spec algo "MPC") as [E|_];
    [exfalso; apply H; unfold knownAlgo; tauto|].
  reflexivity.
Qed.

Lemma Some_eq {A : Type} (a b : A) : Some a = Some b -> a = b.
Proof. intros H. injection H as H. exact H. Qed.

(** X13.  [compute] returns a control vector exactly for the four
    identifiers [PID], [SMC], [STS], [MPC], spelled so; and the vector it
    returns is the one it has stored in the controller state ([T],
    [tau_phi], [tau_theta], [tau_psi]), which the charts and the logger
    read. *)
Theorem compute_returns_stored_vector
    (algo : string) (state : State.t) (target : Setpoint.t) (gains : Gains.t)
    (dt : R) (trajectoryFn : option (R -> Setpoint.t)) (time : R)
    (intState : IntState.t) :
  let r := compute algo state target gains dt trajectoryFn time intState in
  (fst r <> None <-> knownAlgo algo) /\
  (forall u : Input,
      fst r = Some u ->
      u = (IntState.T (snd r), IntState.tau_phi (snd r),
           IntState.tau_theta (snd r), IntState.tau_psi (snd r))).
Proof.
  intros r. subst r.
  assert (K : knownAlgo algo \/ ~ knownAlgo algo).
  { unfold knownAlgo.
    destruct (String.eqb_spec algo "PID"); [tauto|].
    destruct (String.eqb_spec algo "SMC"); [tauto|].
    destruct (String.eqb_spec algo "STS"); [tauto|].
    destruct (String.eqb_spec algo "MPC"); tauto. }
  destruct K as [[E|[E|[E|E]]] | Hn].
  - subst algo. rewrite compute_PID. cbn [fst snd]. split.
    + split; [intros _; unfold knownAlgo; tauto | discriminate].
    + intros u H; apply Some_eq in H; subst u. reflexivity.
  - subst algo. rewrite compute_SMC. cbn [fst snd]. split.
    + split; [intros _; unfold knownAlgo; tauto | discriminate].
    + intros u H; apply Some_eq in H; subst u. unfold computeSMC.
      destruct (smcOuter state target gains). cbn. reflexivity.
  - subst algo. rewrite compute_STS. cbn [fst snd]. split.
    + split; [intros _; unfold knownAlgo; tauto | discriminate].
    + intros u H; apply Some_eq in H; subst u. unfold computeSTS.
      destruct (stsOuter state target gains dt intState) as [[loc s] v].
      cbn. reflexivity.
  - subst algo. rewrite compute_MPC. cbn [fst snd]. split.
    + split; [intros _; unfold knownAlgo; tauto | discriminate].
    + intros u H; apply Some_eq in H; subst u. reflexivity.
  - rewrite (compute_unlabelled _ _ _ _ _ _ _ _ Hn). cbn [fst snd]. split.
    + split; [intros H; exfalso; apply H; reflexivity | intros H; contradiction].
    + intros u [=].
Qed.

Lemma compute_returns_stored_vector_witness :
  knownAlgo "STS" /\
  fst (compute "STS" closing ahead defaultGains DT None 0 resetInternal) <> None /\
  ~ knownAlgo "pid" /\
  fst (compute "pid" closing ahead defaultGains DT None 0 resetInternal) = None.
Proof.
  assert (K : knownAlgo "STS") by (unfold knownAlgo; tauto).
  assert (N : ~ knownAlgo "pid")
    by (unfold knownAlgo; intros [E|[E|[E|E]]]; discriminate).
  destruct (compute_returns_stored_vector "STS" closing ahead defaultGains DT
              None 0 resetInternal) as [A _].
  destruct (compute_returns_stored_vector "pid" closing ahead defaultGains DT
              None 0 resetInternal) as [B _].
  cbv zeta in A, B.
  split; [exact K|]. split; [apply A; exact K|]. split; [exact N|].
  destruct (fst (compute "pid" closing ahead defaultGains DT None 0 resetInternal))
    as [u|]; [|reflexivity].
  exfalso. apply N, B. discriminate.
Defined.


(* --------------------------------------------------------------------- *)
(** *** Hover under control *)

(** Level, asked for no acceleration: the weight as thrust, level as desired
    attitude, whatever the yaw. *)
Lemma thrustAttitude_hover (state : State.t) :
  State.phi state = 0 -> State.theta state = 0 ->
  thrustAttitude state 0 0 0 = Locals.mk 0 0 0 (m * g) 0 0.
Proof.
  intros Hphi Hth. unfold thrustAttitude. cbv zeta.
  rewrite Hphi, Hth, cos_0.
  assert (Hm : m * g = 4.905) by (unfold m, g, PARAMS.m, PARAMS.g; lra).
  assert (H1 : Rmax (1 * 1) 0.1 = 1) by (rewrite Rmax_left; lra).
  assert (HT : clamp (m * (g + 0) / Rmax (1 * 1) 0.1) 0 (m * g * 4) = m * g).
  { rewrite H1. replace (m * (g + 0) / 1) with (m * g) by (field; lra).
    apply clamp_id. lra. }
  rewrite HT.
  assert (H2 : Rmax (m * g) 0.1 = m * g) by (rewrite Rmax_left; lra).
  rewrite H2.
  replace (m * (0 * sin (State.psi state) - 0 * cos (State.psi state)) / (m * g))
    with 0 by (unfold Rdiv; ring).
  rewrite (clamp_id 0 (-0.8) 0.8) by lra.
  rewrite asin_0, (clamp_id 0 (-0.6) 0.6) by lra.
  replace (0 * cos (State.psi state) + 0 * sin (State.psi state)) with 0 by ring.
  assert (Ha : JS.atan2 0 (g + 0) = 0).
  { unfold JS.atan2. destruct (Rlt_dec 0 (g + 0)) as [_|H].
    - replace (0 / (g + 0)) with 0 by (unfold Rdiv; ring). apply atan_0.
    - exfalso. apply H. unfold g, PARAMS.g. lra. }
  rewrite Ha, (clamp_id 0 (-0.6) 0.6) by lra.
  reflexivity.
Qed.

(** On target, level and at rest, the six errors of the outer loops are
    zero. *)
Lemma errors_on_target (state : State.t) (target : Setpoint.t) :
  levelAtRest state -> onTarget state target ->
  (Setpoint.x target - State.x state = 0 /\
   Setpoint.y target - State.y state = 0 /\
   Setpoint.z target - State.z state = 0) /\
  (JS.or0 (Setpoint.vx target) - State.vx state = 0 /\
   JS.or0 (Setpoint.vy target) - State.vy state = 0 /\
   JS.or0 (Setpoint.vz target) - State.vz state = 0).
Proof.
  intros (Hvx & Hvy & Hvz & _) (Tx & Ty & Tz & Tvx & Tvy & Tvz & _).
  rewrite Tx, Ty, Tz, Tvx, Tvy, Tvz, Hvx, Hvy, Hvz. conjs; ring.
Qed.

Lemma sat_0 (phi : R) : sat 0 phi = 0.
Proof.
  unfold sat. destruct (Rle_dec phi 0); [apply sign_0|]. cbv zeta.
  replace (0 / phi) with 0 by (unfold Rdiv; ring).
  rewrite Rabs_R0. destruct (Rle_dec 0 1); [reflexivity | lra].
Qed.

Lemma pid_hover state target G dt intState :
  levelAtRest state -> onTarget state target -> settled intState ->
  0 <= Gains.iMax G ->
  fst (computePID state target G dt intState) = hoverInput /\
  settled (snd (computePID state target G dt intState)).
Proof.
  intros Hs Ht Hi HL.
  destruct (errors_on_target state target Hs Ht) as ((Ex & Ey & Ez) & (Vx & Vy & Vz)).
  destruct Hs as (_ & _ & _ & Hphi & Hth & Hp & Hq & Hr).
  destruct Ht as (_ & _ & _ & _ & _ & _ & Tyaw & Hpsi).
  pose proof Hi as (Ix & Iy & Iz & Ax & Ay & Az & Aphi & Ath & Apsi).
  assert (Hc : clamp (0 + 0 * dt) (- Gains.iMax G) (Gains.iMax G) = 0).
  { replace (0 + 0 * dt) with 0 by ring. apply clamp_id. lra. }
  assert (O : pidOuter state target G dt intState
              = (Locals.mk 0 0 0 (m * g) 0 0, Axes.mk 0 0 0)).
  { unfold pidOuter. cbv zeta. rewrite Ex, Ey, Ez, Vx, Vy, Vz, Ix, Iy, Iz, Hc.
    replace (Gains.Kp_xy G * 0 + Gains.Ki_xy G * 0 + Gains.Kd_xy G * 0) with 0 by ring.
    replace (Gains.Kp_z G * 0 + Gains.Ki_z G * 0 + Gains.Kd_z G * 0) with 0 by ring.
    rewrite (thrustAttitude_hover state Hphi Hth). reflexivity. }
  unfold computePID. rewrite O. cbn [fst snd Locals.T Locals.phi_des
    Locals.theta_des Axes.x Axes.y Axes.z].
  rewrite Hphi, Hth, Hpsi, Hp, Hq, Hr, Tyaw. split.
  - unfold hoverInput. repeat apply f_equal2; try reflexivity; ring.
  - unfold settled. cbn. conjs; solve [reflexivity | assumption | lra].
Qed.

Lemma smc_hover state target G dt intState :
  levelAtRest state -> onTarget state target -> settled intState ->
  fst (computeSMC state target G dt intState) = hoverInput /\
  settled (snd (computeSMC state target G dt intState)).
Proof.
  intros Hs Ht Hi.
  destruct (errors_on_target state target Hs Ht) as ((Ex & Ey & Ez) & (Vx & Vy & Vz)).
  destruct Hs as (_ & _ & _ & Hphi & Hth & Hp & Hq & Hr).
  destruct Ht as (_ & _ & _ & _ & _ & _ & Tyaw & Hpsi).
  assert (A : forall lambda eta phi, smcAxis lambda eta phi 0 0 = 0).
  { intros. unfold smcAxis, surface.
    replace (0 + lambda * 0) with 0 by ring. rewrite sat_0. ring. }
  assert (O : fst (smcOuter state target G) = Locals.mk 0 0 0 (m * g) 0 0).
  { unfold smcOuter. cbv zeta. cbn [fst]. rewrite Ex, Ey, Ez, Vx, Vy, Vz, !A.
    apply thrustAttitude_hover; assumption. }
  unfold computeSMC. destruct (smcOuter state target G) as [loc s].
  cbn [fst] in O. subst loc.
  cbn [fst snd Locals.T Locals.phi_des Locals.theta_des].
  rewrite Hphi, Hth, Hpsi, Hp, Hq, Hr.
  replace (- 0 + Gains.lambda_att G * (0 - 0)) with 0 by ring.
  rewrite sat_0. split.
  - unfold hoverInput. repeat apply f_equal2; try reflexivity; ring.
  - unfold settled. cbn. exact Hi.
Qed.

Lemma sts_hover state target G dt intState :
  levelAtRest state -> onTarget state target -> settled intState ->
  fst (computeSTS state target G dt intState) = hoverInput /\
  settled (snd (computeSTS state target G dt intState)).
Proof.
  intros Hs Ht Hi.
  destruct (errors_on_target state target Hs Ht) as ((Ex & Ey & Ez) & (Vx & Vy & Vz)).
  destruct Hs as (_ & _ & _ & Hphi & Hth & Hp & Hq & Hr).
  destruct Ht as (_ & _ & _ & _ & _ & _ & Tyaw & Hpsi).
  destruct Hi as (Ix & Iy & Iz & Ax & Ay & Az & Aphi & Ath & Apsi).
  assert (A : forall a1 a2, stsAxis a1 a2 0 0 dt = (0, 0)).
  { intros. unfold stsAxis. cbv zeta. rewrite sign_0.
    apply f_equal2; ring. }
  assert (O : stsOuter state target G dt intState
              = (Locals.mk 0 0 0 (m * g) 0 0, Axes.mk 0 0 0, Axes.mk 0 0 0)).
  { unfold stsOuter. cbv zeta. rewrite Ex, Ey, Ez, Vx, Vy, Vz, Ax, Ay, Az.
    unfold surface. replace (0 + Gains.lambda_xy G * 0) with 0 by ring.
    replace (0 + Gains.lambda_z G * 0) with 0 by ring.
    rewrite !A. rewrite (thrustAttitude_hover state Hphi Hth). reflexivity. }
  unfold computeSTS. rewrite O.
  cbn [fst snd Locals.T Locals.phi_des Locals.theta_des Axes.x Axes.y Axes.z].
  rewrite Hphi, Hth, Hpsi, Hp, Hq, Hr, Aphi, Ath, Apsi.
  replace (- 0 + Gains.lambda_att G * (0 - 0)) with 0 by ring.
  rewrite sign_0.
  replace (0 + - Gains.alpha2_att G * 0 * dt) with 0 by ring.
  assert (N0 : JS.num_or0 0 = 0)
    by (unfold JS.num_or0; destruct (Req_dec_T 0 0); reflexivity).
  rewrite N0. split.
  - unfold hoverInput. repeat apply f_equal2; try reflexivity; ring.
  - unfold settled. cbn. conjs; solve [reflexivity | assumption | lra].
Qed.


(* --------------------------------------------------------------------- *)
(** *** The predictive outer loop on a constant reference *)

(** Every weight of the horizon is at least 0.7. *)
Lemma weight_lower (N k : nat) :
  (1 <= k <= N)%nat -> 0.7 <= MPCSpec.w N k.
Proof.
  intros [Hk HN]. unfold MPCSpec.w.
  assert (HNpos : 0 < INR N) by (apply lt_0_INR; lia).
  assert (Hk1 : 1 <= INR k) by (change 1 with (INR 1); apply le_INR; lia).
  assert (HkN : INR k <= INR N) by (apply le_INR; lia).
  assert (Hq : 0 <= 0.3 * (INR k - 1) / INR N <= 0.3)
    by (apply PlantFacts.quot_bounds; [exact HNpos | lra]).
  lra.
Qed.

Lemma weight_sum_lower (N : nat) :
  forall n : nat, (n <= N)%nat -> 0.7 * INR n <= MPCSpec.sum_1_to n (MPCSpec.w N).
Proof.
  induction n as [|n IH]; intros Hn.
  - simpl. lra.
  - cbn [MPCSpec.sum_1_to]. rewrite S_INR.
    assert (H1 := IH ltac:(lia)).
    assert (H2 := weight_lower N (S n) ltac:(lia)).
    lra.
Qed.

Lemma weight_sum_pos (N : nat) :
  (1 <= N)%nat -> 0 < MPCSpec.sum_1_to N (MPCSpec.w N).
Proof.
  intros HN. pose proof (weight_sum_lower N N (Nat.le_refl N)) as H.
  assert (1 <= INR N) by (change 1 with (INR 1); apply le_INR; lia).
  lra.
Qed.

Lemma sum_1_to_scale (c : R) (f : nat -> R) :
  forall n : nat,
    MPCSpec.sum_1_to n (fun k => f k * c) = c * MPCSpec.sum_1_to n f.
Proof.
  induction n as [|n IH]; cbn [MPCSpec.sum_1_to]; [ring | rewrite IH; ring].
Qed.

Lemma sum_1_to_ext (f h : nat -> R) :
  (forall k, f k = h k) ->
  forall n : nat, MPCSpec.sum_1_to n f = MPCSpec.sum_1_to n h.
Proof.
  intros E. induction n as [|n IH]; cbn [MPCSpec.sum_1_to];
    [reflexivity | rewrite IH, E; reflexivity].
Qed.

(** One axis at rest facing a constant reference [r]: the weights cancel. *)
Lemma solve1D_constant_reference (N : nat) (time dt pos r : R) (refFn : R -> R)
    (Q_p Q_v R_ : R) :
  (1 <= N)%nat -> 1 + R_ <> 0 -> (forall t, refFn t = r) ->
  solve1D N time (dt * 2) pos 0 refFn Q_p Q_v R_ = Q_p * (r - pos) / (1 + R_).
Proof.
  intros HN HR Href.
  rewrite solve1D_closed_form. unfold MPCSpec.a_des. cbv zeta.
  rewrite (sum_1_to_ext _ (fun k => MPCSpec.w N k * (Q_p * (r - pos)))).
  - rewrite sum_1_to_scale.
    pose proof (weight_sum_pos N HN) as Hw. field. split; lra.
  - intros k. unfold MPCSpec.e. rewrite Href. ring.
Qed.

(** X14.  For a drone at rest on an axis and a lookahead that always shows
    the position of the target, the predictive outer loop is a plain
    proportional law on that axis, [a_des = Q_pos·(target − pos)/(1 + R)]:
    the horizon weights cancel, and neither the horizon [N >= 1], nor
    [Q_vel], [dt] or the time play a part. *)
Theorem mpc_proportional_at_rest
    (state : State.t) (target : Setpoint.t) (G : Gains.t) (dt : R)
    (trajectoryFn : option (R -> Setpoint.t)) (time : R) :
  (1 <= Gains.N G)%nat -> 1 + Gains.R G <> 0 ->
  holdsTarget trajectoryFn target ->
  let loc := mpcOuter state target G dt trajectoryFn time in
  (State.vx state = 0 ->
   Locals.ax_des loc
   = Gains.Q_pos G * (Setpoint.x target - State.x state) / (1 + Gains.R G)) /\
  (State.vy state = 0 ->
   Locals.ay_des loc
   = Gains.Q_pos G * (Setpoint.y target - State.y state) / (1 + Gains.R G)) /\
  (State.vz state = 0 ->
   Locals.az_des loc
   = Gains.Q_pos G * (Setpoint.z target - State.z state) / (1 + Gains.R G)).
Proof.
  intros HN HR Hh loc. subst loc. unfold mpcOuter, thrustAttitude. cbv zeta.
  cbn [Locals.ax_des Locals.ay_des Locals.az_des].
  conjs; intros ->; apply solve1D_constant_reference; try assumption;
    intros t; apply (Hh t).
Qed.

Lemma mpc_proportional_at_rest_witness :
  (1 <= Gains.N defaultGains)%nat /\ 1 + Gains.R defaultGains <> 0 /\
  holdsTarget None beside_above /\ State.vy createState = 0 /\
  Locals.ay_des (mpcOuter createState beside_above defaultGains DT None 0)
  = Gains.Q_pos defaultGains
    * (Setpoint.y beside_above - State.y createState)
    / (1 + Gains.R defaultGains).
Proof.
  assert (H1 : (1 <= Gains.N defaultGains)%nat) by (cbn; lia).
  assert (H2 : 1 + Gains.R defaultGains <> 0) by (cbn; lra).
  assert (H3 : holdsTarget None beside_above)
    by (intros t; cbn; conjs; reflexivity).
  assert (H4 : State.vy createState = 0) by reflexivity.
  conjs; try assumption.
  apply (mpc_proportional_at_rest createState beside_above defaultGains DT None 0
           H1 H2 H3). exact H4.
Defined.

Lemma mpc_hover state target G dt trajectoryFn time intState :
  levelAtRest state -> onTarget state target -> settled intState ->
  (1 <= Gains.N G)%nat -> 1 + Gains.R G <> 0 ->
  holdsTarget trajectoryFn target ->
  fst (computeMPC state target G dt trajectoryFn time intState) = hoverInput /\
  settled (snd (computeMPC state target G dt trajectoryFn time intState)).
Proof.
  intros Hs Ht Hi HN HR Hh.
  destruct (errors_on_target state target Hs Ht) as ((Ex & Ey & Ez) & _).
  pose proof Hs as (Hvx & Hvy & Hvz & Hphi & Hth & Hp & Hq & Hr).
  destruct Ht as (_ & _ & _ & _ & _ & _ & Tyaw & Hpsi).
  assert (Px : Locals.ax_des (mpcOuter state target G dt trajectoryFn time)
               = Gains.Q_pos G * (Setpoint.x target - State.x state)
                 / (1 + Gains.R G)).
  { unfold mpcOuter, thrustAttitude. cbv zeta. cbn [Locals.ax_des]. rewrite Hvx.
    apply solve1D_constant_reference; try assumption. intros t; apply (Hh t). }
  assert (Py : Locals.ay_des (mpcOuter state target G dt trajectoryFn time)
               = Gains.Q_pos G * (Setpoint.y target - State.y state)
                 / (1 + Gains.R G)).
  { unfold mpcOuter, thrustAttitude. cbv zeta. cbn [Locals.ay_des]. rewrite Hvy.
    apply solve1D_constant_reference; try assumption. intros t; apply (Hh t). }
  assert (Pz : Locals.az_des (mpcOuter state target G dt trajectoryFn time)
               = Gains.Q_pos G * (Setpoint.z target - State.z state)
                 / (1 + Gains.R G)).
  { unfold mpcOuter, thrustAttitude. cbv zeta. cbn [Locals.az_des]. rewrite Hvz.
    apply solve1D_constant_reference; try assumption. intros t; apply (Hh t). }
  rewrite Ex in Px. rewrite Ey in Py. rewrite Ez in Pz.
  replace (Gains.Q_pos G * 0 / (1 + Gains.R G)) with 0 in Px, Py, Pz
    by (unfold Rdiv; ring).
  assert (O : mpcOuter state target G dt trajectoryFn time
              = Locals.mk 0 0 0 (m * g) 0 0).
  { rewrite <- (thrustAttitude_hover state Hphi Hth).
    unfold mpcOuter in *. cbv zeta in *.
    unfold thrustAttitude in Px, Py, Pz.
    cbn [Locals.ax_des Locals.ay_des Locals.az_des] in Px, Py, Pz.
    rewrite Px, Py, Pz. reflexivity. }
  unfold computeMPC. cbv zeta. rewrite O.
  cbn [fst snd Locals.T Locals.phi_des Locals.theta_des].
  rewrite Hphi, Hth, Hpsi, Hp, Hq, Hr. split.
  - unfold hoverInput. repeat apply f_equal2; try reflexivity; ring.
  - unfold settled. cbn. exact Hi.
Qed.

(** X15.  At the setpoint — level, at rest, without yaw, integrators and
    accumulators at zero, the setpoint asking for no velocity — each of the
    four controllers returns exactly the weight [m·g] as thrust and no
    torque, and leaves its integrators and accumulators at zero. *)
Theorem controllers_hold_hover
    (state : State.t) (target : Setpoint.t) (G : Gains.t) (dt : R)
    (trajectoryFn : option (R -> Setpoint.t)) (time : R) (intState : IntState.t) :
  levelAtRest state -> onTarget state target -> settled intState ->
  0 <= Gains.iMax G -> (1 <= Gains.N G)%nat -> 1 + Gains.R G <> 0 ->
  holdsTarget trajectoryFn target ->
  forall algo : string, knownAlgo algo ->
    exists intState',
      compute algo state target G dt trajectoryFn time intState
      = (Some hoverInput, intState') /\
      settled intState'.
Proof.
  intros Hs Ht Hi HL HN HR Hh algo [E|[E|[E|E]]]; subst algo.
  - destruct (pid_hover state target G dt intState Hs Ht Hi HL) as [A B].
    eexists. rewrite compute_PID, A. split; [reflexivity | exact B].
  - destruct (smc_hover state target G dt intState Hs Ht Hi) as [A B].
    eexists. rewrite compute_SMC, A. split; [reflexivity | exact B].
  - destruct (sts_hover state target G dt intState Hs Ht Hi) as [A B].
    eexists. rewrite compute_STS, A. split; [reflexivity | exact B].
  - destruct (mpc_hover state target G dt trajectoryFn time intState
                Hs Ht Hi HN HR Hh) as [A B].
    eexists. rewrite compute_MPC, A. split; [reflexivity | exact B].
Qed.


Lemma controllers_hold_hover_witness :
  levelAtRest level_hover /\ onTarget level_hover here /\ settled resetInternal /\
  0 <= Gains.iMax defaultGains /\ (1 <= Gains.N defaultGains)%nat /\
  1 + Gains.R defaultGains <> 0 /\ holdsTarget None here /\ knownAlgo "MPC" /\
  exists intState',
    compute "MPC" level_hover here defaultGains DT None 0 resetInternal
    = (Some hoverInput, intState') /\
    settled intState'.
Proof.
  assert (H1 : levelAtRest level_hover)
    by (unfold levelAtRest, level_hover; cbn; conjs; reflexivity).
  assert (H2 : onTarget level_hover here)
    by (unfold onTarget, level_hover, here; cbn; conjs; reflexivity).
  assert (H3 : settled resetInternal)
    by (unfold settled, resetInternal; cbn; conjs; reflexivity).
  assert (H4 : 0 <= Gains.iMax defaultGains) by (cbn; lra).
  assert (H5 : (1 <= Gains.N defaultGains)%nat) by (cbn; lia).
  assert (H6 : 1 + Gains.R defaultGains <> 0) by (cbn; lra).
  assert (H7 : holdsTarget None here) by (intros t; cbn; conjs; reflexivity).
  assert (H8 : knownAlgo "MPC") by (unfold knownAlgo; tauto).
  conjs; try assumption.
  exact (controllers_hold_hover level_hover here defaultGains DT None 0
           resetInternal H1 H2 H3 H4 H5 H6 H7 "MPC"%string H8).
Defined.

(* --------------------------------------------------------------------- *)
(** *** Every entry of the published prediction *)

(** The prediction loop appends one rollout entry per step, in order. *)
Lemma predict_loop_entries state loc dtPred :
  forall n k pred,
    JS.for_steps n k
      (predict_body state (Locals.ax_des loc) (Locals.ay_des loc)
                    (Locals.az_des loc) dtPred) pred
    = pred ++ map (rollout state loc dtPred) (seq k n).
Proof.
  induction n as [|n IH]; intros k pred.
  - simpl. now rewrite app_nil_r.
  - cbn [JS.for_steps seq map]. rewrite IH.
    unfold predict_body. rewrite <- app_assoc. reflexivity.
Qed.

(** X16.  The [k]-th entry of the prediction that an MPC call publishes, for
    every [k] from [0] to [N], is the constant-acceleration rollout
    [pos + vel·(k·dt_pred) + ½·a_des·(k·dt_pred)²] of the current state
    under the desired accelerations of that same call, with
    [dt_pred = 2·dt]; there is no entry beyond the [N]-th. *)
Theorem mpc_prediction_entries
    (state : State.t) (target : Setpoint.t) (G : Gains.t) (dt : R)
    (trajectoryFn : option (R -> Setpoint.t)) (time : R) (intState : IntState.t) :
  exists pred,
    IntState.mpcPrediction
      (snd (computeMPC state target G dt trajectoryFn time intState))
    = Some pred /\
    forall k : nat,
      nth_error pred k
      = if (k <=? Gains.N G)%nat
        then Some (rollout state (mpcOuter state target G dt trajectoryFn time)
                           (dt * 2) k)
        else None.
Proof.
  unfold computeMPC. cbv zeta. cbn [snd IntState.mpcPrediction].
  eexists. split; [reflexivity|].
  intros k. unfold mpcPredict.
  rewrite JSFacts.for_le_0, predict_loop_entries, app_nil_l.
  rewrite nth_error_map, nth_error_seq.
  destruct (Nat.leb_spec k (Gains.N G)) as [Hk|Hk].
  - destruct (Nat.ltb_spec k (S (Gains.N G))) as [_|H]; [reflexivity | lia].
  - destruct (Nat.ltb_spec k (S (Gains.N G))) as [H|_]; [lia | reflexivity].
Qed.

End ControlFacts.

(* ===================================================================== *)
(** * The control tick *)
(* ===================================================================== *)

Module LoopFacts.

Import Physics Controllers Vocabulary Scenarios PhysicsFacts PlantFacts ControlFacts Steps.



End LoopFacts.

(* ===================================================================== *)
(** * Further properties of the reference generator and of the wind *)
(* ===================================================================== *)

Module ReferenceFacts.

Import Physics Controllers Trajectories Vocabulary Scenarios PhysicsFacts
       TrajectoriesFacts Steps.


Lemma or0_Some (v : R) : JS.or0 (Some v) = v.
Proof. unfold JS.or0. destruct (Req_dec_T v 0); congruence. Qed.

(* --------------------------------------------------------------------- *)
(** *** Wind *)

Lemma abs_scaled (W x b : R) : Rabs x <= b -> Rabs (W * x) <= b * Rabs W.
Proof.
  intros H. rewrite Rabs_mult. pose proof (Rabs_pos W).
  rewrite (Rmult_comm b). apply Rmult_le_compat_l; assumption.
Qed.

Lemma abs_sin (x : R) : Rabs (sin x) <= 1.
Proof. apply Rabs_le. pose proof (SIN_bound x). lra. Qed.

Lemma abs_cos (x : R) : Rabs (cos x) <= 1.
Proof. apply Rabs_le. pose proof (COS_bound x). lra. Qed.

Lemma abs_mix (a b x y : R) :
  0 <= a -> 0 <= b -> Rabs x <= 1 -> Rabs y <= 1 -> Rabs (x * a + y * b) <= a + b.
Proof.
  intros Ha Hb Hx Hy.
  apply Rabs_le. apply ControlFacts.abs_le_bounds in Hx. apply ControlFacts.abs_le_bounds in Hy.
  split; nra.
Qed.

(** X18.  The wind of a tick is bounded by the intensity setting, at every
    simulation time: [|windX| <= |W|], [|windY| <= 0.3·|W|],
    [|windZ| <= 0.7·|W|], as the plant reads them; intensity zero is still
    air. *)
Theorem wind_bounded (W simTime : R) :
  let env := App.windEnv W simTime in
  Rabs (JS.or0 (Env.windX env)) <= Rabs W /\
  Rabs (JS.or0 (Env.windY env)) <= 0.3 * Rabs W /\
  Rabs (JS.or0 (Env.windZ env)) <= 0.7 * Rabs W /\
  (W = 0 -> windless env).
Proof.
  intros env. subst env. unfold App.windEnv. cbn [Env.windX Env.windY Env.windZ].
  rewrite !or0_Some. conjs.
  - replace (Rabs W) with ((0.5 + 0.5) * Rabs W) by lra.
    apply abs_scaled, abs_mix; try lra; apply abs_sin.
  - rewrite Rmult_assoc. apply abs_scaled.
    rewrite Rabs_mult, (Rabs_pos_eq 0.3) by lra.
    pose proof (abs_sin (simTime * 0.8)). lra.
  - replace (0.7 * Rabs W) with ((0.4 + 0.3) * Rabs W) by lra.
    apply abs_scaled, abs_mix; try lra; [apply abs_cos | apply abs_sin].
  - intros ->. unfold windless. cbn [Env.windX Env.windY Env.windZ].
    rewrite !or0_Some. conjs; ring.
Qed.

Lemma wind_bounded_witness :
  0 = 0 /\ windless (App.windEnv 0 12.5).
Proof.
  split; [reflexivity|].
  apply (wind_bounded 0 12.5). reflexivity.
Defined.


(* --------------------------------------------------------------------- *)
(** *** The keyboard channel *)

(** X19.  The keyboard setpoint never goes below the ground: after every
    update, whatever the keys, [dt] and the accumulator before, the
    altitude returned and stored is not negative.  With no key held the
    feed-forward velocity is zero and the target stays where it was (its
    altitude raised to zero if it was negative). *)
Theorem keyboard_ground_and_idle (keys : string -> bool) (dt : R) (st : KbState.t) :
  let r := updateKeyboard keys dt st in
  0 <= Setpoint.y (fst r) /\
  0 <= Kb.y (KbState.kbTarget (snd r)) /\
  (noKey keys ->
   Setpoint.vx (fst r) = Some 0 /\ Setpoint.vy (fst r) = Some 0 /\
   Setpoint.vz (fst r) = Some 0 /\
   Setpoint.x (fst r) = Kb.x (KbState.kbTarget st) /\
   Setpoint.y (fst r) = Rmax 0 (Kb.y (KbState.kbTarget st)) /\
   Setpoint.z (fst r) = Kb.z (KbState.kbTarget st) /\
   Setpoint.yaw (fst r) = Some (Kb.yaw (KbState.kbTarget st))).
Proof.
  intros r. subst r. unfold updateKeyboard. cbv zeta.
  cbn [fst snd Setpoint.x Setpoint.y Setpoint.z Setpoint.vx Setpoint.vy
       Setpoint.vz Setpoint.yaw KbState.kbTarget Kb.y].
  split; [apply Rmax_l|]. split; [apply Rmax_l|].
  intros Hn. rewrite !Hn. cbn [orb].
  conjs; try reflexivity; f_equal; try f_equal; ring.
Qed.

Lemma keyboard_ground_and_idle_witness :
  noKey (fun _ => false) /\
  Setpoint.x (fst (updateKeyboard (fun _ => false) DT kbInit)) = 0 /\
  Setpoint.y (fst (updateKeyboard (fun _ => false) DT kbInit)) = Rmax 0 2.
Proof.
  assert (H : noKey (fun _ => false)) by (intros code; reflexivity).
  destruct (keyboard_ground_and_idle (fun _ => false) DT kbInit) as (_ & _ & I).
  destruct (I H) as (_ & _ & _ & Ix & Iy & _).
  split; [exact H|]. split; [exact Ix | exact Iy].
Defined.

(** X20.  Of two opposite keys held together the one tested later in the
    source wins: back ([S]/down arrow) over forward, right ([D]/right arrow)
    over left, descend (either shift) over climb, [E] over [Q]; the
    feed-forward velocity returned is then [+3], [+3], [-3] m/s, and the
    yaw advances by [+1.5·dt]. *)
Theorem keyboard_later_key_wins (keys : string -> bool) (dt : R) (st : KbState.t) :
  let r := updateKeyboard keys dt st in
  (keys "KeyS"%string = true \/ keys "ArrowDown"%string = true ->
   Setpoint.vz (fst r) = Some 3.0) /\
  (keys "KeyD"%string = true \/ keys "ArrowRight"%string = true ->
   Setpoint.vx (fst r) = Some 3.0) /\
  (keys "ShiftLeft"%string = true \/ keys "ShiftRight"%string = true ->
   Setpoint.vy (fst r) = Some (- (3.0))) /\
  (keys "KeyE"%string = true ->
   Setpoint.yaw (fst r) = Some (Kb.yaw (KbState.kbTarget st) + 1.5 * dt)).
Proof.
  intros r. subst r. unfold updateKeyboard. cbv zeta.
  cbn [fst Setpoint.vx Setpoint.vy Setpoint.vz Setpoint.yaw].
  conjs.
  - intros H. assert (E : keys "KeyS"%string || keys "ArrowDown"%string = true)
      by (apply orb_true_iff; exact H).
    rewrite E. reflexivity.
  - intros H. assert (E : keys "KeyD"%string || keys "ArrowRight"%string = true)
      by (apply orb_true_iff; exact H).
    rewrite E. reflexivity.
  - intros H. assert (E : keys "ShiftLeft"%string || keys "ShiftRight"%string = true)
      by (apply orb_true_iff; exact H).
    rewrite E. reflexivity.
  - intros H. rewrite H. reflexivity.
Qed.

Lemma keyboard_later_key_wins_witness :
  (fun _ : string => true) "KeyS"%string = true /\
  Setpoint.vz (fst (updateKeyboard (fun _ => true) DT kbInit)) = Some 3.0 /\
  Setpoint.vy (fst (updateKeyboard (fun _ => true) DT kbInit)) = Some (- (3.0)).
Proof.
  destruct (keyboard_later_key_wins (fun _ => true) DT kbInit) as (A & _ & C & _).
  split; [reflexivity|]. split; [apply A | apply C]; left; reflexivity.
Defined.

(* --------------------------------------------------------------------- *)
(** *** Unknown patterns and the lookahead closure *)



(* --------------------------------------------------------------------- *)
(** *** The circle *)

Lemma evaluate_CIRCLE (t : R) :
  evaluate "CIRCLE" t = CIRCLE_fn t (CircleP.mk 4 3 0.5).
Proof. reflexivity. Qed.

(** X22.  The [CIRCLE] reference stays on the circle of radius 4 at altitude
    3, and its feed-forward velocity is horizontal, tangent to the circle
    and of constant speed 2 m/s. *)
Theorem circle_geometry (t : R) :
  exists x z vx vz : R,
    evaluate "CIRCLE" t
    = Some (Setpoint.mk x 3 z (Some vx) (Some 0) (Some vz) (Some 0)) /\
    x * x + z * z = 4 * 4 /\
    x * vx + z * vz = 0 /\
    vx * vx + vz * vz = 2 * 2.
Proof.
  rewrite evaluate_CIRCLE. unfold CIRCLE_fn.
  cbn [CircleP.radius CircleP.altitude CircleP.speed].
  do 4 eexists. split; [reflexivity|].
  pose proof (sin2_cos2 (0.5 * t)) as H. unfold Rsqr in H.
  set (s := sin (0.5 * t)) in *. set (c := cos (0.5 * t)) in *.
  conjs; nra.
Qed.


(* --------------------------------------------------------------------- *)
(** *** Feed-forward velocities *)

Lemma D_lin (w t : R) : derivable_pt_lim (fun u => w * u) t w.
Proof.
  assert (H := derivable_pt_lim_scal id w t 1 (derivable_pt_lim_id t)).
  rewrite Rmult_1_r in H. exact H.
Qed.

(** The derivative of [c + a cos(w t)] is [- a w sin(w t)]. *)
Lemma D_cos (c a w t : R) :
  derivable_pt_lim (fun u => c + a * cos (w * u)) t (- a * w * sin (w * t)).
Proof.
  replace (- a * w * sin (w * t)) with (0 + a * (- sin (w * t) * w)) by ring.
  apply (derivable_pt_lim_plus (fct_cte c) (fun u => a * cos (w * u))).
  - apply derivable_pt_lim_const.
  - apply (derivable_pt_lim_scal (fun u => cos (w * u)) a).
    apply (derivable_pt_lim_comp (fun u => w * u) cos).
    + apply D_lin.
    + apply derivable_pt_lim_cos.
Qed.

(** The derivative of [c + a sin(w t)] is [a w cos(w t)]. *)
Lemma D_sin (c a w t : R) :
  derivable_pt_lim (fun u => c + a * sin (w * u)) t (a * w * cos (w * t)).
Proof.
  replace (a * w * cos (w * t)) with (0 + a * (cos (w * t) * w)) by ring.
  apply (derivable_pt_lim_plus (fct_cte c) (fun u => a * sin (w * u))).
  - apply derivable_pt_lim_const.
  - apply (derivable_pt_lim_scal (fun u => sin (w * u)) a).
    apply (derivable_pt_lim_comp (fun u => w * u) sin).
    + apply D_lin.
    + apply derivable_pt_lim_sin.
Qed.

(** The same derivative for a function that is pointwise the same. *)
Lemma D_same (f h : R -> R) (t l l' : R) :
  (forall u, f u = h u) -> l = l' ->
  derivable_pt_lim f t l -> derivable_pt_lim h t l'.
Proof.
  intros E <- H. exact (derivable_pt_lim_ext f h t l E H).
Qed.

Lemma D_const (c t : R) : derivable_pt_lim (fun _ => c) t 0.
Proof. apply (derivable_pt_lim_const c t). Qed.

(** X23.  For the three analytic patterns [CIRCLE], [HELIX] and [FIGURE8],
    [evaluate] never throws and the feed-forward velocity it returns is, at
    every time and on every axis, the time derivative of the position it
    returns. *)
Theorem analytic_velocity_is_derivative (patternKey : string) :
  patternKey = "CIRCLE"%string \/ patternKey = "HELIX"%string \/
  patternKey = "FIGURE8"%string ->
  exists f : R -> Setpoint.t,
    (forall t, evaluate patternKey t = Some (f t)) /\
    velocityIsDerivative f.
Proof.
  intros [E|[E|E]]; subst patternKey.
  - eexists (fun t => Setpoint.mk _ _ _ _ _ _ _).
    split; [intros t; reflexivity|].
    intros t. do 3 eexists.
    cbn [params Setpoint.x Setpoint.y Setpoint.z Setpoint.vx Setpoint.vy Setpoint.vz
         CircleP.radius CircleP.altitude CircleP.speed].
    split; [reflexivity|]. split; [reflexivity|]. split; [reflexivity|].
    split; [|split].
    + apply (D_same (fun u => 0 + 4 * cos (0.5 * u)) _ t (- 4 * 0.5 * sin (0.5 * t)));
        [intros u; ring | ring | apply D_cos].
    + apply D_const.
    + apply (D_same (fun u => 0 + 4 * sin (0.5 * u)) _ t (4 * 0.5 * cos (0.5 * t)));
        [intros u; ring | ring | apply D_sin].
  - eexists (fun t => Setpoint.mk _ _ _ _ _ _ _).
    split; [intros t; reflexivity|].
    intros t. do 3 eexists.
    cbn [params Setpoint.x Setpoint.y Setpoint.z Setpoint.vx Setpoint.vy Setpoint.vz
         HelixP.radius HelixP.climbRate HelixP.speed].
    split; [reflexivity|]. split; [reflexivity|]. split; [reflexivity|].
    split; [|split].
    + apply (D_same (fun u => 0 + 3 * cos (0.4 * u)) _ t (- 3 * 0.4 * sin (0.4 * t)));
        [intros u; ring | ring | apply D_cos].
    + apply (D_same (fun u => 1 + 0.3 * u) _ t (0 + 0.3));
        [intros u; ring | ring |].
      apply (derivable_pt_lim_plus (fct_cte 1) (fun u => 0.3 * u)).
      * apply derivable_pt_lim_const.
      * apply D_lin.
    + apply (D_same (fun u => 0 + 3 * sin (0.4 * u)) _ t (3 * 0.4 * cos (0.4 * t)));
        [intros u; ring | ring | apply D_sin].
  - eexists (fun t => Setpoint.mk _ _ _ _ _ _ _).
    split; [intros t; reflexivity|].
    intros t. do 3 eexists.
    cbn [params Setpoint.x Setpoint.y Setpoint.z Setpoint.vx Setpoint.vy Setpoint.vz
         Figure8P.scaleX Figure8P.scaleZ Figure8P.altitude Figure8P.speed].
    split; [reflexivity|]. split; [reflexivity|]. split; [reflexivity|].
    split; [|split].
    + apply (D_same (fun u => 0 + 5 * cos (0.4 * u)) _ t (- 5 * 0.4 * sin (0.4 * t)));
        [intros u; ring | ring | apply D_cos].
    + apply (D_same (fun u => 3.5 + 0.5 * sin (0.4 * 0.5 * u)) _ t
                    (0.5 * (0.4 * 0.5) * cos (0.4 * 0.5 * t)));
        [intros u; do 3 f_equal; ring | f_equal; [ring | f_equal; ring]
         | apply D_sin].
    + apply (D_same (fun u => 0 + 3 / 2 * sin (2 * 0.4 * u)) _ t
                    (3 / 2 * (2 * 0.4) * cos (2 * 0.4 * t)));
        [intros u; field | field | apply D_sin].
Qed.

Lemma analytic_velocity_is_derivative_witness :
  ("HELIX"%string = "CIRCLE"%string \/ "HELIX"%string = "HELIX"%string \/
   "HELIX"%string = "FIGURE8"%string) /\
  exists f : R -> Setpoint.t,
    (forall t, evaluate "HELIX" t = Some (f t)) /\ velocityIsDerivative f.
Proof.
  assert (H : "HELIX"%string = "CIRCLE"%string \/ "HELIX"%string = "HELIX"%string \/
              "HELIX"%string = "FIGURE8"%string) by (right; left; reflexivity).
  split; [exact H | exact (analytic_velocity_is_derivative "HELIX"%string H)].
Defined.


(* --------------------------------------------------------------------- *)
(** *** The preview polyline *)

(** After [n] iterations the loop of [generatePreview] has pushed the
    positions of the first [n] samples, in order. *)
Lemma preview_loop (pat : Pattern) (numPoints : nat) (duration : R) :
  (forall t, fn pat t (params pat) <> None) ->
  forall n,
    exists pts,
      JS.for_steps n 0 (preview_body pat numPoints duration) (Some []) = Some pts /\
      List.length pts = n /\
      forall i, (i < n)%nat ->
        exists p,
          fn pat (INR i / INR numPoints * duration) (params pat) = Some p /\
          nth_error pts i = Some (position p).
Proof.
  intros Hfn. induction n as [|n (pts & Hrun & Hlen & Hpts)].
  - exists []. split; [reflexivity|]. split; [reflexivity|]. intros i Hi. lia.
  - rewrite JSFacts.for_steps_snoc, Hrun. simpl Nat.add. unfold preview_body.
    destruct (fn pat (INR n / INR numPoints * duration) (params pat)) as [p|] eqn:Ep;
      [|exfalso; exact (Hfn _ Ep)].
    eexists. split; [reflexivity|]. split.
    + rewrite length_app, Hlen. simpl. lia.
    + intros i Hi. destruct (Nat.eq_dec i n) as [->|Hne].
      * exists p. split; [exact Ep|].
        rewrite nth_error_app2 by lia. rewrite Hlen, Nat.sub_diag. reflexivity.
      * destruct (Hpts i) as (q & Hq & Hnth); [lia|].
        exists q. split; [exact Hq|].
        rewrite nth_error_app1 by lia. exact Hnth.
Qed.

(** X24.  For a pattern that does not throw and at least one interval,
    [generatePreview] returns [numPoints + 1] points, and its [i]-th point is
    the position [evaluate] gives at time [i / numPoints * duration]: the
    polyline starts at time 0, ends at [duration], and drops the velocities. *)
Theorem preview_samples_the_pattern (patternKey : string) (numPoints : nat)
    (duration : R) :
  patterns patternKey <> None ->
  (forall t, evaluate patternKey t <> None) ->
  (1 <= numPoints)%nat ->
  exists pts,
    generatePreview patternKey numPoints duration = Some pts /\
    List.length pts = Datatypes.S numPoints /\
    (forall i, (i <= numPoints)%nat ->
       exists p,
         evaluate patternKey (INR i / INR numPoints * duration) = Some p /\
         nth_error pts i = Some (position p)) /\
    (exists p0 p1,
       evaluate patternKey 0 = Some p0 /\ nth_error pts 0 = Some (position p0) /\
       evaluate patternKey duration = Some p1 /\
       nth_error pts numPoints = Some (position p1)).
Proof.
  intros Hknown Hfn Hn. unfold generatePreview, evaluate in *.
  destruct (patterns patternKey) as [pat|]; [clear Hknown | now elim Hknown].
  destruct (preview_loop pat numPoints duration Hfn (Datatypes.S numPoints))
    as (pts & Hrun & Hlen & Hpts).
  exists pts. rewrite JSFacts.for_le_0.
  split; [exact Hrun|]. split; [exact Hlen|]. split.
  - intros i Hi. apply Hpts. lia.
  - assert (HN : INR numPoints <> 0) by (apply not_0_INR; lia).
    destruct (Hpts 0%nat) as (p0 & E0 & N0); [lia|].
    destruct (Hpts numPoints) as (p1 & E1 & N1); [lia|].
    exists p0, p1.
    replace (INR 0 / INR numPoints * duration) with 0 in E0
      by (simpl; field; exact HN).
    replace (INR numPoints / INR numPoints * duration) with duration in E1
      by (field; exact HN).
    conjs; assumption.
Qed.

Lemma preview_samples_the_pattern_witness :
  exists pts,
    generatePreview "CIRCLE" 2 10 = Some pts /\
    List.length pts = 3%nat /\
    (forall i, (i <= 2)%nat ->
       exists p,
         evaluate "CIRCLE" (INR i / INR 2 * 10) = Some p /\
         nth_error pts i = Some (position p)) /\
    (exists p0 p1,
       evaluate "CIRCLE" 0 = Some p0 /\ nth_error pts 0 = Some (position p0) /\
       evaluate "CIRCLE" 10 = Some p1 /\
       nth_error pts 2 = Some (position p1)).
Proof.
  apply (preview_samples_the_pattern "CIRCLE" 2 10).
  - discriminate.
  - intros t. rewrite evaluate_CIRCLE. discriminate.
  - lia.
Defined.

(* --------------------------------------------------------------------- *)
(** *** The square *)

Lemma Int_part_bounds (x : R) : IZR (Int_part x) <= x < IZR (Int_part x) + 1.
Proof. destruct (base_Int_part x) as [H1 H2]. lra. Qed.

(** [a % b] for a non-negative dividend lies in [[0, b)]. *)
Lemma rem_nonneg (a b : R) : 0 <= a -> 0 < b -> 0 <= JS.rem a b < b.
Proof.
  intros Ha Hb. unfold JS.rem, JS.trunc.
  assert (Hq : 0 <= a / b) by (apply Rmult_le_pos; [lra | left; now apply Rinv_0_lt_compat]).
  destruct (Rle_dec 0 (a / b)) as [_|n]; [|contradiction].
  destruct (Int_part_bounds (a / b)) as [H1 H2].
  assert (Ea : a = b * (a / b)) by (field; lra).
  set (q := a / b) in *. set (k := IZR (Int_part q)) in *.
  clearbody q k. split; nra.
Qed.

(** [a % b] for a negative dividend lies in [(-b, 0]], and is [a] shifted by
    a multiple of [b]. *)
Lemma rem_neg (a b : R) :
  a < 0 -> 0 < b ->
  - b < JS.rem a b <= 0 /\ exists k : Z, JS.rem a b = a - b * IZR k.
Proof.
  intros Ha Hb. unfold JS.rem, JS.trunc.
  assert (Hq : a / b < 0).
  { unfold Rdiv. assert (0 < / b) by now apply Rinv_0_lt_compat. nra. }
  destruct (Rle_dec 0 (a / b)) as [n|_]; [lra|].
  split; [|eexists; reflexivity].
  destruct (Int_part_bounds (- (a / b))) as [H1 H2].
  assert (Ea : a = b * (a / b)) by (field; lra).
  rewrite opp_IZR.
  set (q := a / b) in *. set (k := IZR (Int_part (- q))) in *.
  clearbody q k. split; nra.
Qed.

Lemma floor_range (x : R) (lo hi : Z) :
  IZR lo <= x < IZR hi -> (lo <= JS.floor x < hi)%Z.
Proof.
  intros [Hlo Hhi]. unfold JS.floor.
  destruct (Int_part_bounds x) as [H1 H2]. split.
  - assert (H : IZR lo < IZR (Int_part x + 1)) by (rewrite plus_IZR; lra).
    apply lt_IZR in H. lia.
  - apply lt_IZR. lra.
Qed.

Lemma evaluate_SQUARE (t : R) :
  evaluate "SQUARE" t = SQUARE_fn t (SquareP.mk 4 3 3).
Proof. reflexivity. Qed.

Lemma smoothstep_unit (f : R) : 0 <= f < 1 -> 0 <= f * f * (3 - 2 * f) <= 1.
Proof.
  intros [H0 H1]. split.
  - apply Rmult_le_pos; [apply Rmult_le_pos; lra | lra].
  - assert (H : 0 <= (1 - f) * (1 - f) * (1 + 2 * f))
      by (apply Rmult_le_pos; [apply Rmult_le_pos; lra | lra]).
    replace (f * f * (3 - 2 * f)) with (1 - (1 - f) * (1 - f) * (1 + 2 * f)) by ring.
    lra.
Qed.

(** X25.  For every time [t >= 0] the [SQUARE] pattern returns a setpoint (no
    array read is out of range); it lies at altitude 3 on the perimeter of
    the square of half-side 4, and its feed-forward velocity and yaw are
    zero although the point moves along the edges. *)
Theorem square_on_perimeter (t : R) :
  0 <= t ->
  exists x y z : R,
    evaluate "SQUARE" t = Some (still x y z) /\
    y = 3 /\ -4 <= x <= 4 /\ -4 <= z <= 4 /\
    (x = 4 \/ x = -4 \/ z = 4 \/ z = -4).
Proof.
  intros Ht. rewrite evaluate_SQUARE. unfold SQUARE_fn.
  cbn [SquareP.size SquareP.altitude SquareP.holdTime List.length].
  replace (INR 4 * 3) with 12 by (simpl; lra).
  destruct (rem_nonneg t 12 Ht ltac:(lra)) as [Hp0 Hp1].
  set (phase := JS.rem t 12) in *.
  destruct (rem_nonneg phase 3 Hp0 ltac:(lra)) as [Hf0 Hf1].
  assert (Hs := smoothstep_unit (JS.rem phase 3 / 3) ltac:(lra)).
  set (s := JS.rem phase 3 / 3 * (JS.rem phase 3 / 3) * (3 - 2 * (JS.rem phase 3 / 3))) in *.
  assert (Hk : (0 <= JS.floor (phase / 3) < 4)%Z) by (apply floor_range; simpl; lra).
  set (k := JS.floor (phase / 3)) in *.
  set (corners := [(4, 3, 4); (- (4), 3, 4); (- (4), 3, - (4)); (4, 3, - (4))]).
  assert (Ek : k = 0%Z \/ k = 1%Z \/ k = 2%Z \/ k = 3%Z) by lia.
  clearbody s.
  destruct Ek as [E | [E | [E | E]]]; rewrite E.
  - change (JS.index corners (Z.rem 0 (Z.of_nat 4))) with (Some (4, 3, 4)).
    change (JS.index corners (Z.rem (0 + 1) (Z.of_nat 4))) with (Some (- (4), 3, 4)).
    cbv beta iota zeta. do 3 eexists. split; [reflexivity|].
    split; [lra|]. split; [lra|]. split; [lra|]. right; right; left; lra.
  - change (JS.index corners (Z.rem 1 (Z.of_nat 4))) with (Some (- (4), 3, 4)).
    change (JS.index corners (Z.rem (1 + 1) (Z.of_nat 4))) with (Some (- (4), 3, - (4))).
    cbv beta iota zeta. do 3 eexists. split; [reflexivity|].
    split; [lra|]. split; [lra|]. split; [lra|]. right; left; lra.
  - change (JS.index corners (Z.rem 2 (Z.of_nat 4))) with (Some (- (4), 3, - (4))).
    change (JS.index corners (Z.rem (2 + 1) (Z.of_nat 4))) with (Some (4, 3, - (4))).
    cbv beta iota zeta. do 3 eexists. split; [reflexivity|].
    split; [lra|]. split; [lra|]. split; [lra|]. right; right; right; lra.
  - change (JS.index corners (Z.rem 3 (Z.of_nat 4))) with (Some (4, 3, - (4))).
    change (JS.index corners (Z.rem (3 + 1) (Z.of_nat 4))) with (Some (4, 3, 4)).
    cbv beta iota zeta. do 3 eexists. split; [reflexivity|].
    split; [lra|]. split; [lra|]. split; [lra|]. left; lra.
Qed.

Lemma square_on_perimeter_witness :
  exists x y z : R,
    evaluate "SQUARE" 7 = Some (still x y z) /\
    y = 3 /\ -4 <= x <= 4 /\ -4 <= z <= 4 /\
    (x = 4 \/ x = -4 \/ z = 4 \/ z = -4).
Proof. apply (square_on_perimeter 7). lra. Defined.

(** X26.  For a negative time that is no multiple of the period of 12 s the
    [SQUARE] pattern throws: the remainder is negative, so one of the two
    corner reads has a negative index and yields [undefined]. *)
Theorem square_throws_before_zero (t : R) :
  t < 0 -> (forall k : Z, t <> 12 * IZR k) ->
  evaluate "SQUARE" t = None.
Proof.
  intros Ht Hmult. rewrite evaluate_SQUARE. unfold SQUARE_fn.
  cbn [SquareP.size SquareP.altitude SquareP.holdTime List.length].
  replace (INR 4 * 3) with 12 by (simpl; lra).
  destruct (rem_neg t 12 Ht ltac:(lra)) as [[Hp0 Hp1] [m Hm]].
  assert (Hne : JS.rem t 12 <> 0) by (intros E; apply (Hmult m); lra).
  set (phase := JS.rem t 12) in *.
  assert (Hk : (-4 <= JS.floor (phase / 3) < 0)%Z) by (apply floor_range; simpl; lra).
  set (k := JS.floor (phase / 3)) in *.
  set (corners := [(4, 3, 4); (- (4), 3, 4); (- (4), 3, - (4)); (4, 3, - (4))]).
  assert (Ek : k = (-4)%Z \/ k = (-3)%Z \/ k = (-2)%Z \/ k = (-1)%Z) by lia.
  destruct Ek as [E | [E | [E | E]]]; rewrite E.
  - change (JS.index corners (Z.rem (-4) (Z.of_nat 4))) with (Some (4, 3, 4)).
    change (JS.index corners (Z.rem (-4 + 1) (Z.of_nat 4)))
      with (@None (R * R * R)).
    reflexivity.
  - change (JS.index corners (Z.rem (-3) (Z.of_nat 4))) with (@None (R * R * R)).
    reflexivity.
  - change (JS.index corners (Z.rem (-2) (Z.of_nat 4))) with (@None (R * R * R)).
    reflexivity.
  - change (JS.index corners (Z.rem (-1) (Z.of_nat 4))) with (@None (R * R * R)).
    reflexivity.
Qed.

Lemma square_throws_before_zero_witness : evaluate "SQUARE" (-1) = None.
Proof.
  apply (square_throws_before_zero (-1)); [lra|].
  intros k H.
  assert (H' : IZR (12 * k) = IZR (-1)) by (rewrite mult_IZR; lra).
  apply eq_IZR in H'. lia.
Defined.


(* --------------------------------------------------------------------- *)
(** *** The waypoint walker *)

(** With two waypoints or more [evaluateCustom] takes its general branch. *)
Lemma evaluateCustom_general (t : R) (w : Walker.t) :
  (2 <= List.length (Walker.customWaypoints w))%nat ->
  evaluateCustom t w
  = let len := List.length (Walker.customWaypoints w) in
    let '(c0, c1, c2) := leaving w in
    let '(n0, n1, n2) := heading w in
    let customT := Walker.customT w + 0.016 in
    let frac := JS.min_quot_1 customT (segLength w / customSpeed) in
    let w' :=
      if Rle_dec 1 frac
      then Walker.mk (Walker.customWaypoints w) ((Walker.customIdx w + 1) mod len) 0
      else Walker.mk (Walker.customWaypoints w) (Walker.customIdx w) customT in
    let s := frac * frac * (3 - 2 * frac) in
    (still (c0 + (n0 - c0) * s) (c1 + (n1 - c1) * s) (c2 + (n2 - c2) * s), w').
Proof.
  intros Hlen. unfold evaluateCustom, segLength, leaving, heading.
  destruct w as [wps idx T]. cbn [Walker.customWaypoints Walker.customIdx Walker.customT] in *.
  destruct wps as [|[[a0 a1] a2] [|b rest]]; [simpl in Hlen; lia | simpl in Hlen; lia |].
  set (l := (a0, a1, a2) :: b :: rest).
  destruct (nth (idx mod List.length l) l (0, 0, 0)) as [[c0 c1] c2].
  destruct (nth ((idx + 1) mod List.length l) l (0, 0, 0)) as [[n0 n1] n2].
  reflexivity.
Qed.

Lemma segLength_nonneg (w : Walker.t) : 0 <= segLength w.
Proof.
  unfold segLength. destruct (leaving w) as [[c0 c1] c2].
  destruct (heading w) as [[n0 n1] n2]. apply sqrt_pos.
Qed.

(** The fraction of the segment covered, for a clock that has run. *)
Lemma frac_range (T d : R) :
  0 < T -> 0 <= d ->
  0 < JS.min_quot_1 T (d / customSpeed) <= 1 /\
  (d <= T -> JS.min_quot_1 T (d / customSpeed) = 1) /\
  (T < d -> JS.min_quot_1 T (d / customSpeed) < 1).
Proof.
  intros HT Hd.
  assert (E1 : d / customSpeed = d) by (unfold customSpeed; lra).
  rewrite E1. unfold JS.min_quot_1.
  destruct (Req_dec_T d 0) as [E|N].
  - destruct (Rlt_dec 0 T) as [_|n]; [|contradiction]. split; [lra|]. split; [reflexivity | lra].
  - assert (Hpos : 0 < d) by lra.
    assert (Hq : 0 < T / d) by (apply Rdiv_lt_0_compat; assumption).
    assert (Hge : d <= T -> 1 <= T / d).
    { intros H. apply (Rmult_le_reg_r d); [exact Hpos|].
      replace (T / d * d) with T by (field; exact N). lra. }
    assert (Hlt : T < d -> T / d < 1).
    { intros H. apply (Rmult_lt_reg_r d); [exact Hpos|].
      replace (T / d * d) with T by (field; exact N). lra. }
    unfold Rmin. destruct (Rle_dec (T / d) 1) as [L|G].
    + split; [lra|]. split; [intros H; specialize (Hge H); lra | exact Hlt].
    + split; [lra|]. split; [reflexivity | intros H; specialize (Hlt H); lra].
Qed.

Lemma walkerOk_step (t : R) (w : Walker.t) :
  walkerOk w ->
  walkerOk (snd (evaluateCustom t w)) /\
  Walker.customWaypoints (snd (evaluateCustom t w)) = Walker.customWaypoints w.
Proof.
  intros [HT Hidx].
  destruct (le_lt_dec 2 (List.length (Walker.customWaypoints w))) as [Hlen|Hlen].
  - rewrite (evaluateCustom_general t w Hlen).
    destruct (leaving w) as [[c0 c1] c2]. destruct (heading w) as [[n0 n1] n2].
    cbv zeta. cbn [snd].
    destruct (Rle_dec 1 _) as [_|_]; unfold walkerOk;
      cbn [Walker.customWaypoints Walker.customIdx Walker.customT].
    + split; [|reflexivity]. split; [lra|].
      assert (H := Nat.mod_upper_bound (Walker.customIdx w + 1)
                     (List.length (Walker.customWaypoints w)) ltac:(lia)). lia.
    + split; [|reflexivity]. split; [lra | exact Hidx].
  - unfold evaluateCustom.
    destruct (Walker.customWaypoints w) as [|[[a0 a1] a2] [|b rest]] eqn:E;
      [| |simpl in Hlen; lia]; cbn [snd]; (split; [|exact E]);
      unfold walkerOk; rewrite E; split; assumption.
Qed.

(** X27.  In every state the walker reaches from [setCustomWaypoints], after
    any number of calls of [evaluateCustom] with any times, the waypoint list
    is the one that was set, the segment clock is not negative, and the index
    is within the list (0 for an empty list): no read of the waypoint array is
    out of range. *)
Theorem walker_stays_in_range (wps : list (R * R * R)) (w0 : Walker.t) (ts : list R) :
  Walker.customWaypoints (walkerRun ts (setCustomWaypoints wps w0)) = wps /\
  walkerOk (walkerRun ts (setCustomWaypoints wps w0)).
Proof.
  assert (Hinit : Walker.customWaypoints (setCustomWaypoints wps w0) = wps /\
                  walkerOk (setCustomWaypoints wps w0)).
  { split; [reflexivity|]. unfold walkerOk, setCustomWaypoints.
    cbn [Walker.customWaypoints Walker.customIdx Walker.customT]. split; [lra | lia]. }
  generalize dependent (setCustomWaypoints wps w0). intros w.
  revert w. induction ts as [|t ts IH]; intros w [Hw Hok]; [split; assumption|].
  cbn [walkerRun fold_left]. apply IH.
  destruct (walkerOk_step t w Hok) as [Hok' Hsame]. split; [congruence | exact Hok'].
Qed.

(** X28.  With two waypoints or more and a segment clock that is not
    negative, the setpoint [evaluateCustom] returns lies on the segment from
    the waypoint the walker is leaving to the one it is heading for, at a
    fraction [s] with [0 < s <= 1], with zero velocity and yaw.  At [s = 1]
    the setpoint is the next waypoint and the walker moves on to the next
    segment with its clock at zero; otherwise the index is kept and the clock
    has advanced by 0.016. *)
Theorem walker_setpoint_on_segment (t : R) (w : Walker.t) :
  (2 <= List.length (Walker.customWaypoints w))%nat ->
  0 <= Walker.customT w ->
  exists s x y z : R,
    0 < s <= 1 /\
    fst (evaluateCustom t w) = still x y z /\
    (x, y, z) = between (leaving w) (heading w) s /\
    (s = 1 ->
       (x, y, z) = heading w /\
       snd (evaluateCustom t w)
       = Walker.mk (Walker.customWaypoints w)
           ((Walker.customIdx w + 1) mod List.length (Walker.customWaypoints w)) 0) /\
    (s < 1 ->
       snd (evaluateCustom t w)
       = Walker.mk (Walker.customWaypoints w) (Walker.customIdx w)
           (Walker.customT w + 0.016)).
Proof.
  intros Hlen HT. rewrite (evaluateCustom_general t w Hlen).
  destruct (frac_range (Walker.customT w + 0.016) (segLength w) ltac:(lra)
              (segLength_nonneg w)) as [[Hf0 Hf1] _].
  cbv zeta.
  set (frac := JS.min_quot_1 _ _) in *. clearbody frac.
  destruct (leaving w) as [[c0 c1] c2]. destruct (heading w) as [[n0 n1] n2].
  cbn [fst snd between].
  assert (Hs0 : 0 < frac * frac * (3 - 2 * frac)).
  { apply Rmult_lt_0_compat; [apply Rmult_lt_0_compat; lra | lra]. }
  assert (Hs1 : frac * frac * (3 - 2 * frac)
                = 1 - (1 - frac) * (1 - frac) * (1 + 2 * frac)) by ring.
  assert (Hsq : 0 <= (1 - frac) * (1 - frac) * (1 + 2 * frac)).
  { apply Rmult_le_pos; [apply Rmult_le_pos; lra | lra]. }
  do 4 eexists. split; [|split; [reflexivity|split; [reflexivity|]]].
  - split; [exact Hs0 | lra].
  - destruct (Rle_dec 1 frac) as [Hge|Hlt].
    + assert (frac = 1) by lra. subst frac. split.
      * intros _. split; [|reflexivity].
        apply f_equal2; [apply f_equal2|]; ring.
      * intros H. exfalso. lra.
    + split.
      * intros H. exfalso.
        assert (Hp : 0 < (1 - frac) * (1 - frac) * (1 + 2 * frac)).
        { apply Rmult_lt_0_compat; [apply Rmult_lt_0_compat; lra | lra]. }
        lra.
      * intros _. reflexivity.
Qed.


Lemma walker_setpoint_on_segment_witness :
  exists s x y z : R,
    0 < s <= 1 /\
    fst (evaluateCustom 1 twoWaypoints) = still x y z /\
    (x, y, z) = between (leaving twoWaypoints) (heading twoWaypoints) s /\
    (s = 1 ->
       (x, y, z) = heading twoWaypoints /\
       snd (evaluateCustom 1 twoWaypoints)
       = Walker.mk (Walker.customWaypoints twoWaypoints)
           ((Walker.customIdx twoWaypoints + 1)
            mod List.length (Walker.customWaypoints twoWaypoints)) 0) /\
    (s < 1 ->
       snd (evaluateCustom 1 twoWaypoints)
       = Walker.mk (Walker.customWaypoints twoWaypoints)
           (Walker.customIdx twoWaypoints)
           (Walker.customT twoWaypoints + 0.016)).
Proof.
  apply (walker_setpoint_on_segment 1 twoWaypoints).
  - simpl. lia.
  - simpl. lra.
Defined.

(** What one call does to the walker: the segment is completed as soon as
    the advanced clock reaches its length. *)
Lemma walker_next (t : R) (w : Walker.t) :
  (2 <= List.length (Walker.customWaypoints w))%nat ->
  0 <= Walker.customT w ->
  snd (evaluateCustom t w)
  = if Rle_dec (segLength w) (Walker.customT w + 0.016)
    then Walker.mk (Walker.customWaypoints w)
           ((Walker.customIdx w + 1) mod List.length (Walker.customWaypoints w)) 0
    else Walker.mk (Walker.customWaypoints w) (Walker.customIdx w)
           (Walker.customT w + 0.016).
Proof.
  intros Hlen HT. rewrite (evaluateCustom_general t w Hlen).
  destruct (frac_range (Walker.customT w + 0.016) (segLength w) ltac:(lra)
              (segLength_nonneg w)) as [_ [Hge Hlt]].
  cbv zeta.
  set (frac := JS.min_quot_1 _ _) in *. clearbody frac.
  destruct (leaving w) as [[c0 c1] c2]. destruct (heading w) as [[n0 n1] n2].
  cbn [snd].
  destruct (Rle_dec (segLength w) (Walker.customT w + 0.016)) as [H|H].
  - rewrite (Hge H). destruct (Rle_dec 1 1) as [_|n]; [reflexivity | lra].
  - assert (H' : frac < 1) by (apply Hlt; lra).
    destruct (Rle_dec 1 frac) as [n|_]; [lra | reflexivity].
Qed.

(** While the clock stays short of the segment's length, the calls only
    advance the clock. *)
Lemma walker_holds_segment (ts : list R) :
  forall (wps : list (R * R * R)) (idx : nat) (T : R),
    (2 <= List.length wps)%nat -> 0 <= T ->
    T + 0.016 * INR (List.length ts) < segLength (Walker.mk wps idx T) ->
    walkerRun ts (Walker.mk wps idx T)
    = Walker.mk wps idx (T + 0.016 * INR (List.length ts)).
Proof.
  induction ts as [|t ts IH]; intros wps idx T Hlen HT Hd.
  - simpl. f_equal. lra.
  - cbn [walkerRun fold_left]. rewrite (walker_next t (Walker.mk wps idx T) Hlen HT).
    cbn [Walker.customWaypoints Walker.customIdx Walker.customT].
    cbn [List.length] in Hd. rewrite S_INR in Hd.
    assert (Hn : 0 <= INR (List.length ts)) by apply pos_INR.
    destruct (Rle_dec _ _) as [H|_]; [lra|].
    change (fold_left (fun w' t0 => snd (evaluateCustom t0 w')) ts
              (Walker.mk wps idx (T + 0.016)))
      with (walkerRun ts (Walker.mk wps idx (T + 0.016))).
    rewrite IH; [| exact Hlen | lra |].
    + f_equal. cbn [List.length]. rewrite S_INR. lra.
    + change (segLength (Walker.mk wps idx (T + 0.016)))
        with (segLength (Walker.mk wps idx T)). lra.
Qed.

(** X29.  The walker covers a segment at one unit of length per 62.5 calls,
    whatever times the calls are given: started on a segment of length [d]
    with its clock at [T >= 0], it stays on that segment for the [n] calls
    for which [T + 0.016 n < d], and the call at which the clock reaches [d]
    moves it to the next segment with the clock at zero.  A segment of length
    zero takes one call. *)
Theorem walker_segment_duration (w : Walker.t) (ts : list R) (t : R) :
  (2 <= List.length (Walker.customWaypoints w))%nat ->
  0 <= Walker.customT w ->
  (ts = [] \/
   Walker.customT w + 0.016 * INR (List.length ts) < segLength w) ->
  segLength w <= Walker.customT w + 0.016 * INR (Datatypes.S (List.length ts)) ->
  walkerRun ts w
  = Walker.mk (Walker.customWaypoints w) (Walker.customIdx w)
      (Walker.customT w + 0.016 * INR (List.length ts)) /\
  walkerRun (ts ++ [t]) w
  = Walker.mk (Walker.customWaypoints w)
      ((Walker.customIdx w + 1) mod List.length (Walker.customWaypoints w)) 0.
Proof.
  destruct w as [wps idx T].
  cbn [Walker.customWaypoints Walker.customIdx Walker.customT].
  intros Hlen HT Hstay Hdone.
  assert (Hrun : walkerRun ts (Walker.mk wps idx T)
                 = Walker.mk wps idx (T + 0.016 * INR (List.length ts))).
  { destruct Hstay as [->|Hstay].
    - simpl. f_equal. lra.
    - apply walker_holds_segment; assumption. }
  split; [exact Hrun|].
  unfold walkerRun in *. rewrite fold_left_app, Hrun. cbn [fold_left].
  assert (Hn : 0 <= INR (List.length ts)) by apply pos_INR.
  rewrite walker_next;
    cbn [Walker.customWaypoints Walker.customIdx Walker.customT]; [|exact Hlen|lra].
  change (segLength (Walker.mk wps idx (T + 0.016 * INR (List.length ts))))
    with (segLength (Walker.mk wps idx T)).
  rewrite S_INR in Hdone.
  destruct (Rle_dec _ _) as [_|H]; [reflexivity | lra].
Qed.

Lemma segLength_twoWaypoints : segLength twoWaypoints = 1.
Proof.
  unfold segLength, leaving, heading, twoWaypoints, setCustomWaypoints.
  cbn [Walker.customWaypoints Walker.customIdx List.length].
  change (0 mod 2)%nat with 0%nat. change ((0 + 1) mod 2)%nat with 1%nat.
  cbn [nth].
  replace ((1 - 0) * (1 - 0) + (3 - 3) * (3 - 3) + (0 - 0) * (0 - 0)) with 1 by ring.
  apply sqrt_1.
Qed.

Lemma walker_segment_duration_witness :
  walkerRun (repeat 0 62) twoWaypoints
  = Walker.mk (Walker.customWaypoints twoWaypoints) (Walker.customIdx twoWaypoints)
      (Walker.customT twoWaypoints + 0.016 * INR (List.length (repeat 0 62))) /\
  walkerRun (repeat 0 62 ++ [0]) twoWaypoints
  = Walker.mk (Walker.customWaypoints twoWaypoints)
      ((Walker.customIdx twoWaypoints + 1)
       mod List.length (Walker.customWaypoints twoWaypoints)) 0.
Proof.
  apply (walker_segment_duration twoWaypoints (repeat 0 62) 0).
  - simpl. lia.
  - simpl. lra.
  - right. rewrite segLength_twoWaypoints, repeat_length, INR_IZR_INZ.
    simpl. lra.
  - rewrite segLength_twoWaypoints, repeat_length, INR_IZR_INZ.
    simpl. lra.
Defined.

End ReferenceFacts.
